(** * Dialplan generator of the PBX administration backend

    A shallow embedding of [backend/dialplan.py]: the forward map, the
    dial-logic synthesizer, the outbound route resolver, the ring-timeout
    map and the compiler [generate_extensions_config], followed by the
    properties of the generated dialplan.

    Python [str] values are modelled as [string] (byte strings; the order
    [String.le] is the lexicographic order on code units that Python's
    [sorted] uses on [str]), Python [int] as [Z], [Optional[T]] as
    [option T].  Dictionaries that are only read with [get] are [gmap]s;
    dictionaries whose iteration order reaches the output are ordered
    association lists. *)

From Stdlib Require Import Ascii.
From stdpp Require Import gmap strings list sorting pretty.

Open Scope Z_scope.

(** ** Text helpers *)

(** The line feed and the double quote, which have no literal of their own. *)
Definition nl : string := String "010"%char EmptyString.
Definition dq : string := String "034"%char EmptyString.

(** [sep.join(l)] *)
Fixpoint join (sep : string) (l : list string) : string :=
  match l with
  | [] => ""
  | [x] => x
  | x :: rest => x +:+ sep +:+ join sep rest
  end.

(** Concatenation of the pieces appended to [config] with [+=]. *)
Fixpoint cat (l : list string) : string :=
  match l with
  | [] => ""
  | x :: rest => x +:+ cat rest
  end.

(** A triple-quoted block: every line is followed by a line feed. *)
Definition text (l : list string) : string := cat ((λ x, x +:+ nl) <$> l).

(** [f"{n}"] for an [int]. *)
Definition str_int (n : Z) : string := pretty n.

(** ** Records of the [database] module

    The generator imports its record classes from the module [database],
    which is not among the sources at hand.  Each record below carries the
    attributes that the generator reads, with the types that section 3 of
    the specification gives them. *)

(** Modelled from the spec: the class [CallForward] of [database]; the
    generator reads [extension], [forward_type], [destination] and
    [ring_time] (integer seconds). *)
Record CallForward := mkCallForward {
  cf_extension : string;
  cf_forward_type : string;
  cf_destination : string;
  cf_ring_time : Z
}.

(** Modelled from the spec: the class [InboundRoute] of [database]; the
    generator reads [did], [destination_extension], the optional
    [description] and [trunk_id]. *)
Record InboundRoute := mkInboundRoute {
  route_did : string;
  route_destination_extension : string;
  route_description : option string;
  route_trunk_id : Z
}.

(** Modelled from the spec: the class [VoicemailMailbox] of [database];
    the generator reads [extension] and the optional [ring_timeout]. *)
Record VoicemailMailbox := mkVoicemailMailbox {
  mb_extension : string;
  mb_ring_timeout : option Z
}.

(** Modelled from the spec: the class [SIPPeer] of [database]; the
    generator reads [extension] and the optional [outbound_cid] and [pai]. *)
Record SIPPeer := mkSIPPeer {
  peer_extension : string;
  peer_outbound_cid : option string;
  peer_pai : option string
}.

(** Modelled from the spec: the class [SIPTrunk] of [database]; the
    generator reads [id] and [sip_server]. *)
Record SIPTrunk := mkSIPTrunk {
  trunk_id : Z;
  trunk_sip_server : string
}.

(** Truthiness of an optional string: [None] and [""] are falsy. *)
Definition truthy_str (o : option string) : option string :=
  match o with
  | Some s => if decide (s = "") then None else Some s
  | None => None
  end.

(** ** Forward map *)

(** [_build_forward_map]: extension -> (forward_type -> CallForward);
    a later forward of the same extension and type replaces the earlier. *)
Definition forward_map_step (fwd_map : gmap string (gmap string CallForward))
    (fwd : CallForward) : gmap string (gmap string CallForward) :=
  let fwd_map1 :=
    match fwd_map !! cf_extension fwd with
    | None => <[cf_extension fwd := ∅]> fwd_map
    | Some _ => fwd_map
    end in
  <[cf_extension fwd :=
      <[cf_forward_type fwd := fwd]> (default ∅ (fwd_map1 !! cf_extension fwd))]> fwd_map1.

Definition _build_forward_map (forwards : list CallForward)
    : gmap string (gmap string CallForward) :=
  foldl forward_map_step ∅ forwards.

(** ** Dial-logic synthesizer *)

Definition line_answer : string := " same => n,Answer()".
Definition line_wait : string := " same => n,Wait(0.5)".
Definition line_hangup : string := " same => n,Hangup()".

Definition line_set_device_state (extension : string) : string :=
  " same => n,Set(DEVICE_STATE=${DEVICE_STATE(PJSIP/" +:+ extension +:+ ")})".

Definition line_goto_unavail (state : string) : string :=
  " same => n,GotoIf($[" +:+ dq +:+ "${DEVICE_STATE}" +:+ dq +:+ " = " +:+ dq
    +:+ state +:+ dq +:+ "]?unavail)".

Definition line_dial_extension (extension : string) (actual_ring : Z) : string :=
  " same => n,Dial(PJSIP/" +:+ extension +:+ "," +:+ str_int actual_ring +:+ ",tTr)".

Definition line_dial_trunk (destination : string) (ring : Z) : string :=
  " same => n,Dial(PJSIP/" +:+ destination +:+ "@trunk," +:+ str_int ring +:+ ",tT)".

Definition line_goto_dialstatus (no : string) : string :=
  " same => n,GotoIf($[" +:+ dq +:+ "${DIALSTATUS}" +:+ dq +:+ " = " +:+ dq
    +:+ "BUSY" +:+ dq +:+ "]?busy:" +:+ no +:+ ")".

Definition line_voicemail (label extension greeting : string) : string :=
  " same => n" +:+ label +:+ ",VoiceMail(" +:+ extension +:+ "@default," +:+ greeting +:+ ")".

Definition line_cfu_notice (destination : string) : string :=
  " same => n,NoOp(CFU active: forwarding to " +:+ destination +:+ ")".
Definition line_cfna_notice (destination : string) : string :=
  " same => n(noanswer),NoOp(CFNA: forwarding to " +:+ destination +:+ ")".
Definition line_cfb_notice (destination : string) : string :=
  " same => n(busy),NoOp(CFB: forwarding to " +:+ destination +:+ ")".

(** The two lines appended when [early_answer] is set. *)
Definition answer_lines (early_answer : bool) : list string :=
  if early_answer then [line_answer; line_wait] else [].

(** The branch on the dial outcome, chosen by the busy and no-answer
    forwards of the extension. *)
Definition outcome_lines (extension : string) (cfb cfna : option CallForward)
    : list string :=
  match cfb, cfna with
  | Some b, Some na =>
      [ line_goto_dialstatus "noanswer";
        line_cfna_notice (cf_destination na);
        line_dial_trunk (cf_destination na) 30;
        line_voicemail "" extension "u";
        line_hangup;
        line_cfb_notice (cf_destination b);
        line_dial_trunk (cf_destination b) 30;
        line_voicemail "" extension "b";
        line_hangup ]
  | Some b, None =>
      [ line_goto_dialstatus "unavail";
        line_voicemail "(unavail)" extension "u";
        line_hangup;
        line_cfb_notice (cf_destination b);
        line_dial_trunk (cf_destination b) 30;
        line_voicemail "" extension "b";
        line_hangup ]
  | None, Some na =>
      [ line_goto_dialstatus "noanswer";
        line_cfna_notice (cf_destination na);
        line_dial_trunk (cf_destination na) 30;
        line_voicemail "" extension "u";
        line_hangup;
        line_voicemail "(busy)" extension "b";
        line_hangup ]
  | None, None =>
      [ line_goto_dialstatus "unavail";
        line_voicemail "(unavail)" extension "u";
        line_hangup;
        line_voicemail "(busy)" extension "b";
        line_hangup ]
  end.

(** The list [lines] of [_generate_dial_logic] at its [return]. *)
Definition dial_logic_lines (extension : string)
    (fwd_map : gmap string (gmap string CallForward))
    (ring_time : Z) (early_answer : bool) : list string :=
  let forwards := default ∅ (fwd_map !! extension) in
  let cfu := forwards !! "unconditional" in
  let cfb := forwards !! "busy" in
  let cfna := forwards !! "no_answer" in
  match cfu with
  | Some u =>
      [line_cfu_notice (cf_destination u)]
        ++ answer_lines early_answer
        ++ [line_dial_trunk (cf_destination u) ring_time; line_hangup]
  | None =>
      let actual_ring :=
        match cfna with Some na => cf_ring_time na | None => ring_time end in
      answer_lines early_answer
        ++ [ line_set_device_state extension;
             line_goto_unavail "UNAVAILABLE";
             line_goto_unavail "INVALID";
             line_dial_extension extension actual_ring ]
        ++ outcome_lines extension cfb cfna
  end.

Definition _generate_dial_logic (extension : string)
    (fwd_map : gmap string (gmap string CallForward))
    (ring_time : Z) (early_answer : bool) : string :=
  join nl (dial_logic_lines extension fwd_map ring_time early_answer).

(** ** Outbound route resolver *)

(** Python dictionaries iterate in insertion order.  Where that order is
    observable the dictionary is an association list with unique keys:
    [od_set] overwrites in place or appends at the end. *)
Fixpoint od_get {V} (k : string) (d : list (string * V)) : option V :=
  match d with
  | [] => None
  | (k', v) :: rest => if decide (k = k') then Some v else od_get k rest
  end.

Fixpoint od_set {V} (k : string) (v : V) (d : list (string * V))
    : list (string * V) :=
  match d with
  | [] => [(k, v)]
  | (k', v') :: rest =>
      if decide (k = k') then (k, v) :: rest else (k', v') :: od_set k v rest
  end.

Definition od_keys {V} (d : list (string * V)) : list string := fst <$> d.

(** One round of the loop filling [routes_by_ext]. *)
Definition routes_by_ext_step (d : list (string * list InboundRoute))
    (route : InboundRoute) : list (string * list InboundRoute) :=
  let ext := route_destination_extension route in
  let d1 := match od_get ext d with
            | None => od_set ext [] d
            | Some _ => d
            end in
  od_set ext (default [] (od_get ext d1) ++ [route]) d1.

Definition routes_by_ext (routes : list InboundRoute)
    : list (string * list InboundRoute) :=
  foldl routes_by_ext_step [] routes.

(** [peer_map]: a later peer of the same extension replaces the earlier. *)
Definition build_peer_map (peers : option (list SIPPeer)) : gmap string SIPPeer :=
  foldl (λ m p, <[peer_extension p := p]> m) ∅ (default [] peers).

Record OutboundInfo := mkOutboundInfo {
  out_route : InboundRoute;
  out_pai : option string
}.

(** The selection of one extension; [None] stands for the [IndexError] of
    [ext_routes[0]] on an empty group. *)
Definition select_route (peer : option SIPPeer) (ext_routes : list InboundRoute)
    : option InboundRoute :=
  match ext_routes with
  | [] => None
  | first :: _ =>
      match peer ≫= (λ p, truthy_str (peer_outbound_cid p)) with
      | Some cid =>
          Some (default first
                  (find (λ r, bool_decide (route_did r = cid)) ext_routes))
      | None => Some first
      end
  end.

Definition outbound_entry (peer_map : gmap string SIPPeer)
    (item : string * list InboundRoute) : option (string * OutboundInfo) :=
  let peer := peer_map !! item.1 in
  selected_route ← select_route peer item.2;
  Some (item.1, mkOutboundInfo selected_route (peer ≫= peer_pai)).

Definition _build_outbound_map (routes : list InboundRoute)
    (peers : option (list SIPPeer)) : option (list (string * OutboundInfo)) :=
  mapM (outbound_entry (build_peer_map peers)) (routes_by_ext routes).

(** ** Ring-timeout map *)

(** [mb.ring_timeout or 20] *)
Definition resolve_ring_timeout (mb : VoicemailMailbox) : Z :=
  match mb_ring_timeout mb with
  | Some t => if decide (t = 0) then 20 else t
  | None => 20
  end.

Definition _build_ring_timeout_map (mailboxes : list VoicemailMailbox)
    : gmap string Z :=
  foldl (λ m mb, <[mb_extension mb := resolve_ring_timeout mb]> m) ∅ mailboxes.

(** [ring_timeout_map.get(ext, 20)] *)
Definition ext_ring (ring_timeout_map : gmap string Z) (ext : string) : Z :=
  default 20 (ring_timeout_map !! ext).

(** ** Compiler *)

(** The order in which a [set] of strings is iterated depends on the hash
    seed of the interpreter; it is a parameter of the model, known only to
    enumerate the elements of the set once each. *)
Record SetOrder := mkSetOrder {
  set_iter : gset string → list string;
  set_iter_perm : ∀ s, set_iter s ≡ₚ elements s
}.

(** [sorted(s)] *)
Definition sorted (o : SetOrder) (s : gset string) : list string :=
  merge_sort String.le (set_iter o s).

Definition config_header : string :=
  text [ "; Auto-generated dialplan configuration";
         "; Generated by Asterisk PBX GUI";
         "";
         "[general]";
         "static=yes";
         "writeprotect=no";
         "clearglobalvars=no";
         "";
         "[globals]";
         "";
         "[internal]";
         "; Internal Extension Dialing (PJSIP)";
         "exten => _1XXX,1,NoOp(Internal Call from ${CALLERID(all)} to ${EXTEN})";
         " same => n,Set(CALLERID(name)=${CALLERID(name)})" ].

(** The synthesizer call of the internal context. *)
Definition internal_dial_lines : list string :=
  dial_logic_lines "${EXTEN}" ∅ 20 false.

(** The extensions that get an entry of their own. *)
Definition override_extensions (fwd_map : gmap string (gmap string CallForward))
    (ring_timeout_map : gmap string Z) : gset string :=
  dom fwd_map ∪ dom (filter (λ kv, kv.2 ≠ 20) ring_timeout_map).

(** The synthesizer call of one per-extension entry. *)
Definition override_dial_lines (fwd_map : gmap string (gmap string CallForward))
    (ring_timeout_map : gmap string Z) (ext : string) : list string :=
  dial_logic_lines ext fwd_map (ext_ring ring_timeout_map ext) false.

Definition override_header (ext : string) : string :=
  "exten => " +:+ ext +:+ ",1,NoOp(Call to " +:+ ext +:+ " with forwarding)".

Definition override_block (fwd_map : gmap string (gmap string CallForward))
    (ring_timeout_map : gmap string Z) (ext : string) : string :=
  cat [ "; Extension " +:+ ext +:+ " - custom rules" +:+ nl;
        override_header ext +:+ nl;
        " same => n,Set(CALLERID(name)=${CALLERID(name)})" +:+ nl;
        join nl (override_dial_lines fwd_map ring_timeout_map ext);
        nl +:+ nl ].

Definition outbound_goto (ext : string) : string :=
  " same => n,GotoIf($[" +:+ dq +:+ "${CHANNEL(endpoint)}x" +:+ dq +:+ " = " +:+ dq
    +:+ ext +:+ "x" +:+ dq +:+ "]?out-" +:+ ext +:+ ")" +:+ nl.

Definition outbound_target (trunk_map : gmap Z SIPTrunk)
    (item : string * OutboundInfo) : string :=
  let ext := item.1 in
  let route := out_route item.2 in
  let tid := route_trunk_id route in
  cat [ nl +:+ " same => n(out-" +:+ ext +:+ "),NoOp(Outbound via trunk-ep-"
          +:+ str_int tid +:+ " with CID " +:+ route_did route +:+ ")" +:+ nl;
        " same => n,Set(CALLERID(num)=" +:+ route_did route +:+ ")" +:+ nl;
        match truthy_str (out_pai item.2) with
        | Some pai =>
            let pai_domain :=
              match trunk_map !! tid with
              | Some trunk => trunk_sip_server trunk
              | None => "localhost"
              end in
            " same => n,Set(PJSIP_HEADER(add,P-Asserted-Identity)=<sip:" +:+ pai
              +:+ "@" +:+ pai_domain +:+ ">)" +:+ nl
        | None => ""
        end;
        " same => n,Dial(PJSIP/${EXTEN}@trunk-ep-" +:+ str_int tid +:+ ",120,tT)" +:+ nl;
        " same => n,Hangup()" +:+ nl ].

(** The two outbound contexts; nothing when the outbound map is empty. *)
Definition outbound_section (trunk_map : gmap Z SIPTrunk)
    (outbound_map : list (string * OutboundInfo)) : string :=
  match outbound_map with
  | [] => ""
  | _ :: _ =>
      cat [ "; === Outbound calling via assigned trunks ===" +:+ nl;
            "exten => _0X.,1,NoOp(Outbound call from ${CHANNEL(endpoint)} to ${EXTEN})" +:+ nl;
            cat (outbound_goto <$> od_keys outbound_map);
            " same => n,NoOp(No outbound route for this extension)" +:+ nl;
            " same => n,Playback(ss-noservice)" +:+ nl;
            " same => n,Hangup()" +:+ nl;
            cat (outbound_target trunk_map <$> outbound_map);
            nl;
            "; International with + prefix" +:+ nl;
            "exten => _+X.,1,NoOp(Outbound intl call from ${CHANNEL(endpoint)} to ${EXTEN})" +:+ nl;
            cat (outbound_goto <$> od_keys outbound_map);
            " same => n,Playback(ss-noservice)" +:+ nl;
            " same => n,Hangup()" +:+ nl;
            cat (outbound_target trunk_map <$> outbound_map);
            nl ]
  end.

Definition static_section : string :=
  text [ "; Voicemail access - dial *98 to check voicemail";
         "exten => *98,1,NoOp(Voicemail Access for ${CALLERID(num)})";
         " same => n,Answer()";
         " same => n,Wait(0.5)";
         " same => n,VoiceMailMain(${CALLERID(num)}@default)";
         " same => n,Hangup()";
         "";
         "; Voicemail direct - dial *97 + extension";
         "exten => _*97XXXX,1,NoOp(Direct Voicemail for ${EXTEN:3})";
         " same => n,Answer()";
         " same => n,Wait(0.5)";
         " same => n,VoiceMail(${EXTEN:3}@default)";
         " same => n,Hangup()";
         "";
         "; Echo test";
         "exten => *43,1,Answer()";
         " same => n,Echo()";
         " same => n,Hangup()";
         "";
         "[from-trunk]";
         "; Inbound DID routing - auto-generated" ].

Definition to_header_fallback : string :=
  text [ "";
         "; Extract DID from To header when Request-URI has no user part";
         "exten => s,1,NoOp(Inbound call with no DID in Request-URI)";
         " same => n,Set(TO_HDR=${PJSIP_HEADER(read,To)})";
         " same => n,Set(DID=${CUT(CUT(TO_HDR,@,1),:,2)})";
         " same => n,NoOp(Extracted DID: ${DID})";
         " same => n,GotoIf($[${LEN(${DID})} > 0]?from-trunk,${DID},1)";
         " same => n,NoOp(Could not extract DID from To header)";
         " same => n,Hangup()";
         "" ].

(** The synthesizer call of one inbound route. *)
Definition inbound_dial_lines (fwd_map : gmap string (gmap string CallForward))
    (ring_timeout_map : gmap string Z) (route : InboundRoute) : list string :=
  let ext := route_destination_extension route in
  dial_logic_lines ext fwd_map (ext_ring ring_timeout_map ext) true.

Definition inbound_header (route : InboundRoute) : string :=
  "exten => " +:+ route_did route +:+ ",1,NoOp(Inbound call to DID "
    +:+ route_did route +:+ ")".

Definition inbound_block (fwd_map : gmap string (gmap string CallForward))
    (ring_timeout_map : gmap string Z) (route : InboundRoute) : string :=
  let desc := default (route_did route) (truthy_str (route_description route)) in
  cat [ nl +:+ "; " +:+ desc +:+ nl;
        inbound_header route +:+ nl;
        " same => n,Set(CALLERID(name)=${CALLERID(name)})" +:+ nl;
        join nl (inbound_dial_lines fwd_map ring_timeout_map route);
        nl ].

Definition no_routes_block : string :=
  text [ "";
         "; No inbound routes configured";
         "exten => _X.,1,NoOp(Unrouted inbound call to ${EXTEN})";
         " same => n,Hangup()" ].

Definition inbound_section (fwd_map : gmap string (gmap string CallForward))
    (ring_timeout_map : gmap string Z) (routes : list InboundRoute) : string :=
  match routes with
  | [] => no_routes_block
  | _ :: _ => cat (inbound_block fwd_map ring_timeout_map <$> routes)
  end.

Definition catch_all : string :=
  text [ "";
         "; Catch-all for unmatched inbound calls";
         "exten => _[+0-9].,1,NoOp(Unmatched inbound DID ${EXTEN})";
         " same => n,Hangup()" ].

Definition build_trunk_map (trunks : option (list SIPTrunk)) : gmap Z SIPTrunk :=
  foldl (λ m t, <[trunk_id t := t]> m) ∅ (default [] trunks).

(** The pieces appended to [config], in order, once the lookup maps are
    built. *)
Definition config_pieces (o : SetOrder)
    (fwd_map : gmap string (gmap string CallForward))
    (outbound_map : list (string * OutboundInfo))
    (trunk_map : gmap Z SIPTrunk) (ring_timeout_map : gmap string Z)
    (routes : list InboundRoute) : list string :=
  [ config_header;
    join nl internal_dial_lines;
    nl +:+ nl;
    cat (override_block fwd_map ring_timeout_map
           <$> sorted o (override_extensions fwd_map ring_timeout_map));
    outbound_section trunk_map outbound_map;
    static_section;
    to_header_fallback;
    inbound_section fwd_map ring_timeout_map routes;
    catch_all ].

(** [generate_extensions_config]; [None] stands for a raised exception. *)
Definition generate_extensions_config (o : SetOrder)
    (routes : list InboundRoute) (forwards : option (list CallForward))
    (mailboxes : option (list VoicemailMailbox))
    (peers : option (list SIPPeer)) (trunks : option (list SIPTrunk))
    : option string :=
  let fwd_map := _build_forward_map (default [] forwards) in
  outbound_map ← _build_outbound_map routes peers;
  let trunk_map := build_trunk_map trunks in
  let ring_timeout_map := _build_ring_timeout_map (default [] mailboxes) in
  Some (cat (config_pieces o fwd_map outbound_map trunk_map ring_timeout_map routes)).

(** The iteration order used to run the model: the one of [elements]. *)
Definition elements_order : SetOrder :=
  mkSetOrder elements (λ s, reflexivity (elements s)).

(** ** Writing the dialplan *)

Definition EXTENSIONS_CONFIG_PATH : string := "/etc/asterisk/custom/extensions.conf".

(** [os.path.dirname] on POSIX paths: the part before the last slash,
    without its trailing slashes unless it consists of slashes only. *)
Fixpoint rstrip_slash (rev_head : list ascii) : list ascii :=
  match rev_head with
  | "/"%char :: rest => rstrip_slash rest
  | _ => rev_head
  end.

Fixpoint drop_to_slash (rev_path : list ascii) : list ascii :=
  match rev_path with
  | [] => []
  | "/"%char :: _ => rev_path
  | _ :: rest => drop_to_slash rest
  end.

Definition os_path_dirname (path : string) : string :=
  let rev_head := drop_to_slash (reverse (String.list_ascii_of_string path)) in
  String.string_of_list_ascii
    (reverse (match rstrip_slash rev_head with
              | [] => rev_head
              | stripped => stripped
              end)).

(** The calls that [write_extensions_config] makes into the operating
    system, as an interface: each call returns the state it leaves behind
    and whether it returned normally ([false]: it raised).  [fs_read] is
    the content of a file, and a file written normally holds what was
    written. *)
Class FileSystem (fs : Type) := {
  fs_makedirs : string → fs → fs * bool;
  fs_write : string → string → fs → fs * bool;
  fs_read : string → fs → option string;
  fs_write_read path content s s' :
    fs_write path content s = (s', true) → fs_read path s' = Some content
}.

(** [write_extensions_config]: any exception inside the [try] block gives
    [False]; the calls to the logger leave no trace in the model. *)
Definition write_extensions_config `{FileSystem fs} (o : SetOrder)
    (routes : list InboundRoute) (forwards : option (list CallForward))
    (mailboxes : option (list VoicemailMailbox))
    (peers : option (list SIPPeer)) (trunks : option (list SIPTrunk))
    (s : fs) : fs * bool :=
  match generate_extensions_config o routes forwards mailboxes peers trunks with
  | None => (s, false)
  | Some config_content =>
      let '(s1, made) :=
        fs_makedirs (os_path_dirname EXTENSIONS_CONFIG_PATH) s in
      if made then fs_write EXTENSIONS_CONFIG_PATH config_content s1
      else (s1, false)
  end.

(** A file system in which every call succeeds: a map from paths to
    contents. *)
#[export] Instance map_file_system : FileSystem (gmap string string).
Proof.
  refine {| fs_makedirs := λ _ s, (s, true);
            fs_write := λ path content s, (<[path := content]> s, true);
            fs_read := λ path s, s !! path |}.
  intros path content s s' [= <-]. apply lookup_insert_eq.
Defined.

(** ** Settings router ([backend/routers/settings.py]) *)

(** Modelled from the spec: the class [SystemSettings] of [database], the
    rows of the system settings; the router reads and writes [key],
    [value] (which may be NULL) and [description]. *)
Record SystemSettings := mkSystemSettings {
  setting_key : string;
  setting_value : option string;
  setting_description : option string
}.

(** The table is the list of its rows, in the order in which the database
    yields them.

    [db.query(SystemSettings).filter(SystemSettings.key == key).first()] *)
Definition query_setting (db : list SystemSettings) (key : string)
    : option SystemSettings :=
  find (λ row, bool_decide (setting_key row = key)) db.

(** [setting.value = value] on the row that the query returned. *)
Fixpoint set_setting_value (db : list SystemSettings) (key : string)
    (value : option string) : list SystemSettings :=
  match db with
  | [] => []
  | row :: rest =>
      if decide (setting_key row = key)
      then mkSystemSettings (setting_key row) value (setting_description row) :: rest
      else row :: set_setting_value rest key value
  end.

(** The query followed by the assignment to the row found, or by
    [db.add] of a new row. *)
Definition upsert_setting (db : list SystemSettings) (key : string)
    (value : option string) (description : option string) : list SystemSettings :=
  match query_setting db key with
  | Some _ => set_setting_value db key value
  | None => db ++ [mkSystemSettings key value description]
  end.

Definition SMTP_KEYS : list string :=
  ["smtp_host"; "smtp_port"; "smtp_tls"; "smtp_user"; "smtp_password"; "smtp_from"].

(** [value or ""] *)
Definition or_empty (value : option string) : string := default "" value.

(** [get_settings] *)
Definition get_settings (db : list SystemSettings) : list (string * string) :=
  foldl (λ result key,
           od_set key
             match query_setting db key with
             | Some setting =>
                 if decide (key = "smtp_password")
                 then match truthy_str (setting_value setting) with
                      | Some _ => "****"
                      | None => ""
                      end
                 else or_empty (setting_value setting)
             | None =>
                 if decide (key = "smtp_port") then "587"
                 else if decide (key = "smtp_tls") then "true"
                 else ""
             end result)
    [] SMTP_KEYS.

(** The request body of [update_settings]. *)
Record SettingsUpdate := mkSettingsUpdate {
  upd_smtp_host : option string;
  upd_smtp_port : option string;
  upd_smtp_tls : option string;
  upd_smtp_user : option string;
  upd_smtp_password : option string;
  upd_smtp_from : option string
}.

(** [data.model_dump()]: the fields in the order of their declaration. *)
Definition model_dump (data : SettingsUpdate) : list (string * option string) :=
  [ ("smtp_host", upd_smtp_host data);
    ("smtp_port", upd_smtp_port data);
    ("smtp_tls", upd_smtp_tls data);
    ("smtp_user", upd_smtp_user data);
    ("smtp_password", upd_smtp_password data);
    ("smtp_from", upd_smtp_from data) ].

(** The settings written by [update_settings]: the dumped request, with a
    masked password replaced by the stored one. *)
Definition settings_to_store (data : SettingsUpdate) (db : list SystemSettings)
    : list (string * option string) :=
  let settings_dict := model_dump data in
  if decide (od_get "smtp_password" settings_dict = Some (Some "****"))
  then match query_setting db "smtp_password" with
       | Some existing =>
           od_set "smtp_password" (setting_value existing) settings_dict
       | None => settings_dict
       end
  else settings_dict.

(** The table that [update_settings] commits. *)
Definition update_settings_commit (data : SettingsUpdate)
    (db : list SystemSettings) : list SystemSettings :=
  foldl (λ db item, upsert_setting db item.1 (Some (or_empty item.2)) None)
    db (settings_to_store data db).

(** [full_settings], read back after the commit. *)
Definition full_settings (db : list SystemSettings) : list (string * option string) :=
  foldl (λ result key,
           od_set key
             match query_setting db key with
             | Some s => setting_value s
             | None => Some ""
             end result)
    [] SMTP_KEYS.

(** The calls into the configuration writers of other modules, in the
    order in which the router makes them. *)
Inductive ConfigCall :=
  | write_msmtp_config (settings : list (string * option string))
  | write_voicemail_config (mailboxes : list VoicemailMailbox)
      (settings : list (string * option string))
  | reload_voicemail
  | write_pjsip_config (all_peers : list SIPPeer) (all_trunks : list SIPTrunk)
      (global_codecs : string) (acl_enabled : bool)
  | reload_asterisk.

(** [update_settings], for a request that passed [require_admin]: the
    committed table and the calls that follow the commit, each taken to
    return; [mailboxes] is the table of mailboxes. *)
Definition update_settings (data : SettingsUpdate) (db : list SystemSettings)
    (mailboxes : list VoicemailMailbox) : list SystemSettings * list ConfigCall :=
  let db' := update_settings_commit data db in
  let settings := full_settings db' in
  (db',
   match truthy_str (mjoin (od_get "smtp_host" settings)) with
   | Some _ => [write_msmtp_config settings]
   | None => []
   end ++ [write_voicemail_config mailboxes settings; reload_voicemail]).

(** The request that sends back what [get_settings] returned. *)
Definition resubmit (shown : list (string * string)) : SettingsUpdate :=
  mkSettingsUpdate (od_get "smtp_host" shown) (od_get "smtp_port" shown)
    (od_get "smtp_tls" shown) (od_get "smtp_user" shown)
    (od_get "smtp_password" shown) (od_get "smtp_from" shown).

(** *** Codecs *)

(** The [id]s of [AVAILABLE_CODECS]. *)
Definition AVAILABLE_CODEC_IDS : list string :=
  ["ulaw"; "alaw"; "g722"; "opus"; "g729"; "gsm"].

(** [s.split(sep)] for a separator of one character. *)
Fixpoint split_on (sep : ascii) (s : string) : list string :=
  match s with
  | EmptyString => [EmptyString]
  | String c rest =>
      if Ascii.eqb c sep then EmptyString :: split_on sep rest
      else match split_on sep rest with
           | [] => [String c EmptyString]
           | item :: items => String c item :: items
           end
  end.

(** [[c.strip() for c in data.global_codecs.split(",") if c.strip()]];
    [strip] stands for [str.strip]. *)
Definition parse_codecs (strip : string → string) (global_codecs : string)
    : list string :=
  strip <$> filter (λ c, strip c ≠ "") (split_on "," global_codecs).

(** A handler returns normally or raises an [HTTPException]. *)
Inductive Response (A : Type) :=
  | Returned (a : A)
  | HTTPException (status_code : Z) (detail : string).
Arguments Returned {A} a.
Arguments HTTPException {A} status_code detail.

(** [_is_acl_enabled] *)
Definition _is_acl_enabled (db : list SystemSettings) : bool :=
  match query_setting db "ip_whitelist_enabled" with
  | Some s => bool_decide (setting_value s = Some "true")
  | None => false
  end.

(** [update_codec_settings], for a request that passed [require_admin]:
    the committed table, the calls that follow the commit, each taken to
    return, and the [global_codecs] of the answer; [all_peers] and
    [all_trunks] are the tables of peers and trunks. *)
Definition update_codec_settings (strip : string → string)
    (global_codecs : string) (db : list SystemSettings)
    (all_peers : list SIPPeer) (all_trunks : list SIPTrunk)
    : Response (list SystemSettings * list ConfigCall * string) :=
  let codecs := parse_codecs strip global_codecs in
  match codecs with
  | [] => HTTPException 400 "Mindestens ein Codec muss ausgewählt sein"
  | _ :: _ =>
      match find (λ c, bool_decide (c ∉ AVAILABLE_CODEC_IDS)) codecs with
      | Some c => HTTPException 400 ("Unbekannter Codec: " +:+ c)
      | None =>
          let db' :=
            upsert_setting db "global_codecs" (Some (join "," codecs))
              (Some "Global audio codecs") in
          Returned
            (db',
             [ write_pjsip_config all_peers all_trunks (join "," codecs)
                 (_is_acl_enabled db');
               reload_asterisk ],
             join "," codecs)
      end
  end.

(** [get_codec_settings], its [global_codecs]; [DEFAULT_CODECS] belongs to
    another module. *)
Definition get_codec_settings (DEFAULT_CODECS : option string)
    (db : list SystemSettings) : option string :=
  match query_setting db "global_codecs" with
  | Some setting => setting_value setting
  | None => DEFAULT_CODECS
  end.

(** The characters below 128 for which [str.isspace] holds: tab, line
    feed, vertical tab, form feed, carriage return (9 to 13), the four
    separators (28 to 31) and the space (32). *)
Definition is_ascii_space (c : ascii) : bool :=
  let n := N_of_ascii c in
  ((9 <=? n) && (n <=? 13) || (28 <=? n) && (n <=? 32))%N.

(** [str.strip] on a text of ASCII characters: the white space of ASCII is
    removed at both ends.  The white space that Unicode has beyond ASCII,
    which [str.strip] removes as well, is left in place, so on other texts
    this is not [str.strip]; the handlers take their [strip] as an
    argument. *)
Fixpoint lstrip_ascii (s : string) : string :=
  match s with
  | String c rest => if is_ascii_space c then lstrip_ascii rest else s
  | EmptyString => EmptyString
  end.

Definition strip_ascii (s : string) : string :=
  String.rev (lstrip_ascii (String.rev (lstrip_ascii s))).

(** ** Reading instructions back

    A continuation line has the shape [ same => n,App(args)] or
    [ same => n(label),App(args)]; [instr_app] returns its application. *)

Fixpoint strip_prefix (p s : string) : option string :=
  match p, s with
  | EmptyString, _ => Some s
  | String a p', String b s' => if Ascii.eqb a b then strip_prefix p' s' else None
  | String _ _, EmptyString => None
  end.

Fixpoint take_until (c : ascii) (s : string) : string :=
  match s with
  | EmptyString => EmptyString
  | String a s' => if Ascii.eqb a c then EmptyString else String a (take_until c s')
  end.

Fixpoint drop_until (c : ascii) (s : string) : option string :=
  match s with
  | EmptyString => None
  | String a s' => if Ascii.eqb a c then Some s' else drop_until c s'
  end.

Definition instr_app (line : string) : option string :=
  rest ← strip_prefix " same => n" line;
  match rest with
  | String "," r => Some (take_until "(" r)
  | String "(" r =>
      after ← drop_until ")" r;
      match after with
      | String "," r' => Some (take_until "(" r')
      | _ => None
      end
  | _ => None
  end.

Definition is_app (app : string) (line : string) : bool :=
  bool_decide (instr_app line = Some app).

(** The lines that probe the state of the called device. *)
Definition is_device_state_check (line : string) : bool :=
  match strip_prefix " same => n,Set(DEVICE_STATE=" line,
        strip_prefix (" same => n,GotoIf($[" +:+ dq +:+ "${DEVICE_STATE}") line with
  | None, None => false
  | _, _ => true
  end.

(** [forwards.get(forward_type)] for the forwards of one extension. *)
Definition forward_of (fwd_map : gmap string (gmap string CallForward))
    (extension forward_type : string) : option CallForward :=
  default ∅ (fwd_map !! extension) !! forward_type.

(** ** Vocabulary of the statements *)

(** The record of an extension among several with the same extension: the
    last one in input order. *)
Definition peer_record (peers : option (list SIPPeer)) (ext : string)
    : option SIPPeer :=
  last (filter (λ p, peer_extension p = ext) (default [] peers)).

Definition mailbox_record (mailboxes : list VoicemailMailbox) (ext : string)
    : option VoicemailMailbox :=
  last (filter (λ mb, mb_extension mb = ext) mailboxes).

(** The routes of an extension, in input order. *)
Definition routes_of (routes : list InboundRoute) (ext : string)
    : list InboundRoute :=
  filter (λ r, route_destination_extension r = ext) routes.

(** Occurrences of a character and of a substring in a text. *)
Fixpoint has_char (c : ascii) (s : string) : bool :=
  match s with
  | EmptyString => false
  | String a s' => Ascii.eqb a c || has_char c s'
  end.

Fixpoint occurs (sub s : string) : bool :=
  match strip_prefix sub s with
  | Some _ => true
  | None =>
      match s with
      | EmptyString => false
      | String _ s' => occurs sub s'
      end
  end.

(** The label of a continuation line, if it carries one. *)
Definition instr_label (line : string) : option string :=
  rest ← strip_prefix " same => n(" line;
  Some (take_until ")" rest).

(** For each line of [l] that satisfies [p], the line that follows it
    ([None] at the end of the list). *)
Fixpoint next_after (p : string → bool) (l : list string) : list (option string) :=
  match l with
  | [] => []
  | x :: rest => (if p x then [head rest] else []) ++ next_after p rest
  end.

(** The elements of a list in the order of their first occurrence. *)
Fixpoint first_occurrences (l : list string) : list string :=
  match l with
  | [] => []
  | x :: rest => x :: filter (λ y, y ≠ x) (first_occurrences rest)
  end.

(** The value stored under a key: [None] without a row, [Some None] for
    a row whose value is NULL. *)
Definition stored (db : list SystemSettings) (key : string) : option (option string) :=
  setting_value <$> query_setting db key.

(** What [get_settings] shows for a key with the stored value [v]. *)
Definition shown (key : string) (v : option (option string)) : string :=
  match v with
  | Some value =>
      if decide (key = "smtp_password")
      then match truthy_str value with Some _ => "****" | None => "" end
      else or_empty value
  | None =>
      if decide (key = "smtp_port") then "587"
      else if decide (key = "smtp_tls") then "true"
      else ""
  end.

(** The password that [update_settings] stores: the submitted one, or the
    stored one when the mask is submitted and a password row exists. *)
Definition password_to_store (data : SettingsUpdate) (db : list SystemSettings)
    : option string :=
  if decide (upd_smtp_password data = Some "****")
  then match query_setting db "smtp_password" with
       | Some existing => setting_value existing
       | None => Some "****"
       end
  else upd_smtp_password data.

(** Reading a decimal numeral back.  [read_int] accepts exactly the
    numerals that Python prints for an [int]: ["0"], or an optional minus
    sign followed by digits of which the first is not [0]. *)
Definition digit_value (c : ascii) : option N :=
  let n := N_of_ascii c in
  if decide (48 ≤ n ≤ 57)%N then Some (n - 48)%N else None.

Fixpoint read_digits (acc : N) (s : string) : option N :=
  match s with
  | EmptyString => Some acc
  | String c rest => d ← digit_value c; read_digits (10 * acc + d) rest
  end.

Definition read_nat (s : string) : option N :=
  match s with
  | EmptyString => None
  | String c rest =>
      if Ascii.eqb c "0"
      then match rest with EmptyString => Some 0%N | String _ _ => None end
      else read_digits 0 s
  end.

Definition read_int (s : string) : option Z :=
  match s with
  | EmptyString => None
  | String c rest =>
      if Ascii.eqb c "-"
      then n ← read_nat rest;
           if decide (n = 0%N) then None else Some (- Z.of_N n)
      else Z.of_N <$> read_nat s
  end.

(** ** Sample data *)

(** Two routes to different extensions that carry the same DID. *)
Definition dup_route_a : InboundRoute := mkInboundRoute "4912340" "1001" None 1.
Definition dup_route_b : InboundRoute := mkInboundRoute "4912340" "1002" None 1.

Definition sample_cfu : CallForward :=
  mkCallForward "1001" "unconditional" "0049301234" 20.
Definition sample_cfna : CallForward :=
  mkCallForward "1002" "no_answer" "0049305555" 15.
Definition sample_cfb : CallForward :=
  mkCallForward "1002" "busy" "0049306666" 20.
Definition sample_forwards : list CallForward :=
  [sample_cfu; sample_cfna; sample_cfb].

Definition sample_route_1 : InboundRoute :=
  mkInboundRoute "4912340" "1001" None 1.
Definition sample_route_2 : InboundRoute :=
  mkInboundRoute "4912341" "1001" (Some "Office") 1.
Definition sample_routes : list InboundRoute := [sample_route_1; sample_route_2].

Definition sample_peer : SIPPeer :=
  mkSIPPeer "1001" (Some "4912341") (Some "4912341").

Definition sample_mailbox : VoicemailMailbox := mkVoicemailMailbox "1003" (Some 0).

Definition sample_mailbox_negative : VoicemailMailbox :=
  mkVoicemailMailbox "1004" (Some (-5)).

Definition sample_route_3 : InboundRoute :=
  mkInboundRoute "4912350" "1002" None 2.
Definition sample_peer_plain : SIPPeer := mkSIPPeer "1001" (Some "4912350") None.
Definition sample_trunk : SIPTrunk := mkSIPTrunk 1 "sip.example.org".

Definition sample_settings : list SystemSettings :=
  [ mkSystemSettings "smtp_host" (Some "mail.example.org") None;
    mkSystemSettings "smtp_password" (Some "s3cret") None ].
Definition sample_settings_other : list SystemSettings :=
  [ mkSystemSettings "smtp_host" (Some "mail.example.org") None;
    mkSystemSettings "smtp_password" (Some "another") None ].
Definition sample_update : SettingsUpdate :=
  mkSettingsUpdate (Some "mail.example.org") (Some "465") None (Some "pbx")
    (Some "****") (Some "pbx@example.org").

(** * Decimal numerals *)

Lemma digit_value_pretty_N_char (d : N) :
  (d < 10)%N → digit_value (pretty_N_char d) = Some d.
Proof.
  intros Hd.
  assert (d = 0 ∨ d = 1 ∨ d = 2 ∨ d = 3 ∨ d = 4 ∨ d = 5 ∨ d = 6 ∨ d = 7
          ∨ d = 8 ∨ d = 9)%N as Hcases by lia.
  repeat (destruct Hcases as [->|Hcases]; [reflexivity|]). by subst d.
Qed.

Lemma read_digits_pretty_N_go (x : N) :
  ∃ k : N, ∀ acc s,
    read_digits acc (pretty_N_go x s) = read_digits (acc * k + x) s.
Proof.
  induction (N.lt_wf_0 x) as [x _ IH].
  destruct (decide (x = 0)%N) as [->|Hx].
  - exists 1%N. intros acc s. rewrite pretty_N_go_0. f_equal. lia.
  - destruct (IH (x `div` 10)%N) as [k Hk]; [apply N.div_lt; lia|].
    exists (k * 10)%N. intros acc s.
    rewrite pretty_N_go_step, Hk by lia. cbn [read_digits].
    rewrite digit_value_pretty_N_char by (apply N.mod_lt; lia).
    cbn [mbind option_bind]. f_equal.
    pose proof (N.div_mod x 10 ltac:(lia)) as Hdiv. nia.
Qed.

Lemma pretty_N_go_head (x : N) (s : string) :
  (0 < x)%N →
  ∃ c rest, pretty_N_go x s = String c rest
            ∧ Ascii.eqb c "0" = false ∧ Ascii.eqb c "-" = false.
Proof.
  revert s. induction (N.lt_wf_0 x) as [x _ IH]. intros s Hx.
  rewrite pretty_N_go_step by done.
  destruct (decide (x `div` 10 = 0)%N) as [Hq|Hq].
  - rewrite Hq, pretty_N_go_0. eexists _, _. split; [done|].
    assert (x < 10)%N as Hlt.
    { apply N.div_small_iff in Hq; lia. }
    rewrite N.mod_small by done.
    assert (x = 1 ∨ x = 2 ∨ x = 3 ∨ x = 4 ∨ x = 5 ∨ x = 6 ∨ x = 7
            ∨ x = 8 ∨ x = 9)%N as Hcases by lia.
    repeat (destruct Hcases as [->|Hcases]; [by split|]). by subst x.
  - apply IH; [apply N.div_lt; lia|by apply N.neq_0_lt_0].
Qed.

Lemma read_nat_pretty_positive (p : positive) :
  ∃ c rest, pretty p = String c rest ∧ Ascii.eqb c "-" = false
            ∧ read_nat (pretty p) = Some (N.pos p).
Proof.
  unfold pretty, pretty_positive, pretty, pretty_N.
  rewrite decide_False by done.
  destruct (pretty_N_go_head (N.pos p) "") as (c & rest & Heq & Hzero & Hminus);
    [done|].
  exists c, rest. split; [done|]. split; [done|].
  unfold read_nat. rewrite Heq, Hzero, <- Heq.
  destruct (read_digits_pretty_N_go (N.pos p)) as [k Hk]. rewrite Hk.
  cbn [read_digits]. reflexivity.
Qed.

(** The text that stands for an integer in the dialplan reads back as
    that integer. *)
Lemma read_int_str_int (z : Z) : read_int (str_int z) = Some z.
Proof.
  unfold str_int, pretty, pretty_Z. destruct z as [|p|p]; [reflexivity| |].
  - destruct (read_nat_pretty_positive p) as (c & rest & Heq & Hminus & Hread).
    unfold read_int. rewrite Heq, Hminus, <- Heq, Hread. reflexivity.
  - destruct (read_nat_pretty_positive p) as (c & rest & _ & _ & Hread).
    change ("-" +:+ pretty p) with (String "-" (pretty p)).
    cbn [read_int]. change (Ascii.eqb "-" "-") with true. cbn match.
    rewrite Hread. cbn [mbind option_bind]. by rewrite decide_False.
Qed.

(** * Properties of the dial-logic synthesizer *)

Section synthesizer.
Variable extension : string.
Variable fwd_map : gmap string (gmap string CallForward).
Variable ring_time : Z.

Lemma dial_logic_lines_cfu cfu early_answer :
  forward_of fwd_map extension "unconditional" = Some cfu →
  dial_logic_lines extension fwd_map ring_time early_answer
  = [line_cfu_notice (cf_destination cfu)]
      ++ answer_lines early_answer
      ++ [line_dial_trunk (cf_destination cfu) ring_time; line_hangup].
Proof.
  unfold forward_of, dial_logic_lines. intros Hcfu. rewrite Hcfu. done.
Qed.

Lemma dial_logic_lines_no_cfu early_answer :
  forward_of fwd_map extension "unconditional" = None →
  dial_logic_lines extension fwd_map ring_time early_answer
  = answer_lines early_answer
      ++ [ line_set_device_state extension;
           line_goto_unavail "UNAVAILABLE";
           line_goto_unavail "INVALID";
           line_dial_extension extension
             (match forward_of fwd_map extension "no_answer" with
              | Some na => cf_ring_time na
              | None => ring_time
              end) ]
      ++ outcome_lines extension (forward_of fwd_map extension "busy")
           (forward_of fwd_map extension "no_answer").
Proof.
  unfold forward_of, dial_logic_lines. intros Hcfu. rewrite Hcfu. done.
Qed.

Lemma outcome_lines_no_answer cfb cfna :
  List.filter (is_app "Answer") (outcome_lines extension cfb cfna) = [].
Proof. destruct cfb, cfna; reflexivity. Qed.

Lemma dial_logic_lines_answer early_answer :
  List.filter (is_app "Answer")
    (dial_logic_lines extension fwd_map ring_time early_answer)
  = if early_answer then [line_answer] else [].
Proof.
  destruct (forward_of fwd_map extension "unconditional") as [cfu|] eqn:Hcfu.
  - rewrite (dial_logic_lines_cfu cfu) by done. by destruct early_answer.
  - rewrite dial_logic_lines_no_cfu by done.
    rewrite !List.filter_app, outcome_lines_no_answer.
    by destruct early_answer.
Qed.

Lemma dial_logic_lines_wait early_answer :
List.filter (is_app "Wait")
  (dial_logic_lines extension fwd_map ring_time early_answer)
= if early_answer then [line_wait] else [].
Proof.
  destruct (forward_of fwd_map extension "unconditional") as [cfu|] eqn:Hcfu.
  - rewrite (dial_logic_lines_cfu cfu) by done. by destruct early_answer.
  - rewrite dial_logic_lines_no_cfu by done.
    destruct (forward_of fwd_map extension "busy"),
      (forward_of fwd_map extension "no_answer"), early_answer; reflexivity.
Qed.

(** The synthesizer has no path that emits nothing. *)
Lemma dial_logic_never_empty early_answer :
_generate_dial_logic extension fwd_map ring_time early_answer ≠ "".
Proof.
  unfold _generate_dial_logic.
  destruct (forward_of fwd_map extension "unconditional") as [cfu|] eqn:Hcfu.
  - rewrite (dial_logic_lines_cfu cfu) by done. by destruct early_answer.
  - rewrite dial_logic_lines_no_cfu by done. by destruct early_answer.
Qed.

Lemma dial_logic_lines_early :
  ∃ pre post,
    dial_logic_lines extension fwd_map ring_time true
      = pre ++ [line_answer; line_wait] ++ post
    ∧ List.filter (is_app "Dial") pre = []
    ∧ List.filter is_device_state_check pre = []
    ∧ List.filter (is_app "Answer") post = [].
Proof.
  destruct (forward_of fwd_map extension "unconditional") as [cfu|] eqn:Hcfu.
  - rewrite (dial_logic_lines_cfu cfu) by done.
    by exists [line_cfu_notice (cf_destination cfu)],
      [line_dial_trunk (cf_destination cfu) ring_time; line_hangup].
  - rewrite dial_logic_lines_no_cfu by done. eexists [], _.
    split_and!; [done..|].
    rewrite List.filter_app. by rewrite outcome_lines_no_answer.
Qed.

(** C2. An extension with an unconditional forward gets the forward
    path alone: the notice, the optional answer and pause, the dial of
    the forward destination through the trunk and the hang-up.  The block
    holds no device-state check, no [VoiceMail] instruction and no jump,
    so that no other branch can be reached. *)
Theorem unconditional_forward_short_circuit cfu early_answer :
  forward_of fwd_map extension "unconditional" = Some cfu →
  let block := dial_logic_lines extension fwd_map ring_time early_answer in
  block = [line_cfu_notice (cf_destination cfu)]
            ++ answer_lines early_answer
            ++ [line_dial_trunk (cf_destination cfu) ring_time; line_hangup]
  ∧ List.filter is_device_state_check block = []
  ∧ List.filter (is_app "VoiceMail") block = []
  ∧ List.filter (is_app "GotoIf") block = []
  ∧ _generate_dial_logic extension fwd_map ring_time early_answer
    = join nl block.
Proof.
  intros Hcfu block. subst block. unfold _generate_dial_logic.
  rewrite (dial_logic_lines_cfu cfu) by done.
  destruct early_answer; repeat split; reflexivity.
Qed.


(** C8. Without an unconditional forward, the [Dial] instructions of the
    block are, in this order: the dial of the called extension, whose
    duration is the decimal numeral of the ring time of the no-answer
    forward when there is one and of the ring time given by the caller
    otherwise; the dial of the no-answer forward destination and the dial
    of the busy forward destination, when they exist, both for 30
    seconds.  The text returned is these lines joined by line feeds. *)
Theorem dial_durations early_answer :
  forward_of fwd_map extension "unconditional" = None →
  let cfb := forward_of fwd_map extension "busy" in
  let cfna := forward_of fwd_map extension "no_answer" in
  ∃ duration : string,
    read_int duration
    = Some (match cfna with Some na => cf_ring_time na | None => ring_time end)
    ∧ List.filter (is_app "Dial")
        (dial_logic_lines extension fwd_map ring_time early_answer)
      = [ " same => n,Dial(PJSIP/" +:+ extension +:+ "," +:+ duration +:+ ",tTr)" ]
          ++ match cfna with
             | Some na =>
                 [" same => n,Dial(PJSIP/" +:+ cf_destination na +:+ "@trunk,30,tT)"]
             | None => []
             end
          ++ match cfb with
             | Some b =>
                 [" same => n,Dial(PJSIP/" +:+ cf_destination b +:+ "@trunk,30,tT)"]
             | None => []
             end
    ∧ _generate_dial_logic extension fwd_map ring_time early_answer
      = join nl (dial_logic_lines extension fwd_map ring_time early_answer).
Proof.
  intros Hcfu cfb cfna. subst cfb cfna.
  exists (str_int (match forward_of fwd_map extension "no_answer" with
                   | Some na => cf_ring_time na
                   | None => ring_time
                   end)).
  split; [apply read_int_str_int|]. split; [|reflexivity].
  rewrite dial_logic_lines_no_cfu by done.
  destruct (forward_of fwd_map extension "busy"),
    (forward_of fwd_map extension "no_answer"), early_answer; reflexivity.
Qed.

End synthesizer.

(** ** The rendered text of the unconditional path *)

Lemma has_char_app c (a b : string) :
  has_char c (a +:+ b) = has_char c a || has_char c b.
Proof.
  induction a as [|x a IH]; [done|].
  change (String x a +:+ b) with (String x (a +:+ b)). simpl.
  by rewrite IH, orb_assoc.
Qed.

Lemma strip_prefix_has_char c (sub s r : string) :
  strip_prefix sub s = Some r → has_char c sub = true → has_char c s = true.
Proof.
  revert s. induction sub as [|a sub IH]; intros [|b s]; simpl; try done.
  destruct (Ascii.eqb a b) eqn:Hab; [|done].
  apply Ascii.eqb_eq in Hab as ->. intros Hs.
  destruct (Ascii.eqb b c); [done|]. simpl. by apply IH.
Qed.

(** A text that lacks a character of [sub] has no occurrence of [sub]. *)
Lemma occurs_missing_char c (sub s : string) :
  has_char c sub = true → has_char c s = false → occurs sub s = false.
Proof.
  intros Hsub. induction s as [|b s IH]; simpl.
  - destruct (strip_prefix sub "") as [r|] eqn:Hr; [|done].
    by pose proof (strip_prefix_has_char c sub "" r Hr Hsub).
  - intros Hs.
    destruct (strip_prefix sub (String b s)) as [r|] eqn:Hr.
    + apply (strip_prefix_has_char c) in Hr; [|done]. simpl in Hr. congruence.
    + apply IH. by apply orb_false_elim in Hs as [_ ?].
Qed.

Lemma has_char_pretty_N_go c (x : N) (s : string) :
  (∀ d, pretty_N_char d ≠ c) → has_char c s = false →
  has_char c (pretty_N_go x s) = false.
Proof.
  intros Hc. revert s. induction (N.lt_wf_0 x) as [x _ IH]; intros s Hs.
  destruct (decide (x = 0)%N) as [->|Hx]; [by rewrite pretty_N_go_0|].
  rewrite pretty_N_go_step by lia. apply IH; [apply N.div_lt; lia|].
  cbn [has_char]. rewrite Hs, orb_false_r. apply Ascii.eqb_neq, Hc.
Qed.

(** The decimal rendering of an integer holds digits and a minus sign. *)
Lemma has_char_str_int c (z : Z) :
  (∀ d, pretty_N_char d ≠ c) → c ≠ "-"%char → has_char c (str_int z) = false.
Proof.
  intros Hc Hminus.
  assert (∀ p : positive, has_char c (pretty p) = false) as Hpos.
  { intros p. unfold pretty, pretty_positive, pretty, pretty_N.
    rewrite decide_False by done. by apply has_char_pretty_N_go. }
  assert (has_char c "0" = false) as Hzero.
  { cbn [has_char]. rewrite orb_false_r. apply Ascii.eqb_neq, (Hc 0%N). }
  unfold str_int, pretty, pretty_Z. destruct z as [|p|p]; [done|apply Hpos|].
  rewrite has_char_app, Hpos, orb_false_r. cbn [has_char].
  rewrite orb_false_r. apply Ascii.eqb_neq. congruence.
Qed.

(** X21. When the forward destination holds neither [V] nor [_] (a dial
    string does not), the text that the synthesizer returns for an
    extension with an unconditional forward has no occurrence of
    [VoiceMail(] or [DEVICE_STATE] at all. *)
Lemma unconditional_forward_text extension fwd_map ring_time cfu early_answer :
  forward_of fwd_map extension "unconditional" = Some cfu →
  has_char "V" (cf_destination cfu) = false →
  has_char "_" (cf_destination cfu) = false →
  let block_text := _generate_dial_logic extension fwd_map ring_time early_answer in
  occurs "VoiceMail(" block_text = false
  ∧ occurs "DEVICE_STATE" block_text = false.
Proof.
  intros Hcfu HV Hu block_text. subst block_text. unfold _generate_dial_logic.
  rewrite (dial_logic_lines_cfu _ _ _ cfu) by done.
  assert (∀ d, pretty_N_char d ≠ "V"%char) as HdV.
  { intros d. unfold pretty_N_char. by repeat case_match. }
  assert (∀ d, pretty_N_char d ≠ "_"%char) as Hdu.
  { intros d. unfold pretty_N_char. by repeat case_match. }
  split.
  - apply (occurs_missing_char "V"); [done|].
    destruct early_answer; cbn [answer_lines app join];
      unfold line_cfu_notice, line_dial_trunk;
      rewrite !has_char_app, HV, (has_char_str_int "V") by done; reflexivity.
  - apply (occurs_missing_char "_"); [done|].
    destruct early_answer; cbn [answer_lines app join];
      unfold line_cfu_notice, line_dial_trunk;
      rewrite !has_char_app, Hu, (has_char_str_int "_") by done; reflexivity.
Qed.

(** * Lookup maps *)

(** A dictionary filled by [d[key(x)] = val(x)] over a list holds, under
    each key, the value of the last element with that key. *)
Lemma foldl_insert_lookup `{Countable K} {A V} (key : A → K) (val : A → V)
    (l : list A) (k : K) :
  foldl (λ m x, <[key x := val x]> m) (∅ : gmap K V) l !! k
  = val <$> last (filter (λ x, key x = k) l).
Proof.
  induction l as [|x l IH] using rev_ind; [done|].
  rewrite foldl_app, filter_app. simpl.
  destruct (decide (key x = k)) as [Hk|Hk].
  - rewrite Hk, lookup_insert_eq, filter_cons_True by done.
    by rewrite filter_nil, last_snoc.
  - rewrite lookup_insert_ne, filter_cons_False by done.
    by rewrite filter_nil, app_nil_r.
Qed.

Lemma filter_none {A} (P : A → Prop) `{!∀ x, Decision (P x)} (l : list A) :
  (∀ x, x ∈ l → ¬ P x) → filter P l = [].
Proof.
  induction l as [|x l IH]; intros Hl; [done|].
  rewrite filter_cons_False by (apply Hl; left).
  apply IH. intros y Hy. apply Hl. by right.
Qed.

Lemma build_peer_map_lookup peers ext :
  build_peer_map peers !! ext = peer_record peers ext.
Proof.
  unfold build_peer_map, peer_record.
  rewrite (foldl_insert_lookup peer_extension id). apply option_fmap_id.
Qed.

Lemma last_filter_unique {A} (key : A → string) (l : list A) (k : string) (x : A) :
  NoDup (key <$> l) →
  last (filter (λ y, key y = k) l) = Some x ↔ x ∈ l ∧ key x = k.
Proof.
  intros Hnd. split.
  - intros Hl%last_Some_elem_of. apply list_elem_of_filter in Hl. tauto.
  - intros [Hin Hkey]. induction l as [|y l IH]; [by apply elem_of_nil in Hin|].
    apply NoDup_cons in Hnd as [Hy Hnd]. simpl in Hy.
    assert (Hrest : ∀ z, z ∈ l → key z ≠ key y).
    { intros z Hz Heq. apply Hy. rewrite <- Heq. by apply list_elem_of_fmap_2. }
    apply elem_of_cons in Hin as [->|Hin].
    + rewrite filter_cons_True by done.
      assert (filter (λ z, key z = k) l = []) as ->; [|done].
      apply filter_none. intros z Hz. rewrite <- Hkey. auto.
    + rewrite filter_cons_False by (rewrite <- Hkey; intros Heq; by eapply Hrest).
      by apply IH.
Qed.

(** With one peer per extension, the peer record of an extension is the
    peer with that extension; likewise for mailboxes. *)
Lemma peer_record_unique peers ext p :
  NoDup (peer_extension <$> default [] peers) →
  peer_record peers ext = Some p ↔ p ∈ default [] peers ∧ peer_extension p = ext.
Proof. apply last_filter_unique. Qed.

Lemma mailbox_record_unique mailboxes ext mb :
  NoDup (mb_extension <$> mailboxes) →
  mailbox_record mailboxes ext = Some mb ↔ mb ∈ mailboxes ∧ mb_extension mb = ext.
Proof. apply last_filter_unique. Qed.

Lemma ring_timeout_map_lookup mailboxes ext :
  _build_ring_timeout_map mailboxes !! ext
  = resolve_ring_timeout <$> mailbox_record mailboxes ext.
Proof. apply (foldl_insert_lookup mb_extension resolve_ring_timeout). Qed.

Lemma forward_map_step_lookup fwd_map fwd ext :
  forward_map_step fwd_map fwd !! ext
  = if decide (ext = cf_extension fwd)
    then Some (<[cf_forward_type fwd := fwd]> (default ∅ (fwd_map !! ext)))
    else fwd_map !! ext.
Proof.
  unfold forward_map_step. case_decide as Hext; [subst ext|].
  - rewrite lookup_insert_eq.
    destruct (fwd_map !! cf_extension fwd) as [fs|] eqn:Hfs.
    + by rewrite Hfs.
    + by rewrite lookup_insert_eq.
  - rewrite lookup_insert_ne by done.
    destruct (fwd_map !! cf_extension fwd); [done|].
    by rewrite lookup_insert_ne.
Qed.

(** X1. The forward that the forward map holds for an extension and a
    forward type is the last forward of the input with that extension and
    type (a later forward replaces an earlier one), and none when the
    input has no such forward. *)
Lemma forward_of_build forwards ext ty :
  forward_of (_build_forward_map forwards) ext ty
  = last (filter (λ f, cf_extension f = ext ∧ cf_forward_type f = ty) forwards).
Proof.
  unfold forward_of, _build_forward_map.
  induction forwards as [|f l IH] using rev_ind; [done|].
  rewrite foldl_app, filter_app. simpl. rewrite forward_map_step_lookup.
  case_decide as Hext; simpl.
  - destruct (decide (cf_forward_type f = ty)) as [Hty|Hty].
    + rewrite Hty, lookup_insert_eq, filter_cons_True by done.
      by rewrite filter_nil, last_snoc.
    + rewrite lookup_insert_ne, filter_cons_False by (try done; tauto).
      by rewrite filter_nil, app_nil_r.
  - rewrite filter_cons_False by (intros [? _]; done).
    by rewrite filter_nil, app_nil_r.
Qed.

(** X2. The keys of the forward map are exactly the extensions that have
    a forward of any type in the input, also of a type that the
    synthesizer does not know. *)
Lemma forward_map_dom forwards ext :
  ext ∈ dom (_build_forward_map forwards)
  ↔ ∃ f, f ∈ forwards ∧ cf_extension f = ext.
Proof.
  unfold _build_forward_map.
  induction forwards as [|f l IH] using rev_ind.
  - simpl. rewrite dom_empty_L. split; [set_solver|].
    intros (f & Hf & _). by apply elem_of_nil in Hf.
  - rewrite foldl_app. simpl. rewrite elem_of_dom, forward_map_step_lookup.
    case_decide as Hext.
    + split; [|by eauto]. intros _. exists f. split; [|done].
      apply elem_of_app. right. by apply list_elem_of_singleton.
    + rewrite <- elem_of_dom, IH. split.
      * intros (g & Hg & Hge). exists g. split; [|done].
        apply elem_of_app. by left.
      * intros (g & Hg & Hge). apply elem_of_app in Hg as [Hg|Hg]; [by eauto|].
        apply list_elem_of_singleton in Hg. by subst.
Qed.

(** * Properties of the outbound route resolver *)

Section ordered_dict.
Context {V : Type}.
Implicit Types (d : list (string * V)) (k : string) (v : V).

Lemma od_get_set_eq k v d : od_get k (od_set k v d) = Some v.
Proof.
  induction d as [|[k' v'] d IH]; simpl.
  - by rewrite decide_True.
  - destruct (decide (k = k')) as [->|Hk]; simpl.
    + by rewrite decide_True.
    + by rewrite decide_False.
Qed.

Lemma od_get_set_ne k k' v d : k ≠ k' → od_get k' (od_set k v d) = od_get k' d.
Proof.
  intros Hk. induction d as [|[k0 v0] d IH]; simpl.
  - by rewrite decide_False.
  - destruct (decide (k = k0)) as [->|Hk0]; simpl.
    + by rewrite !decide_False.
    + by rewrite IH.
Qed.

Lemma od_set_set k v v' d : od_set k v (od_set k v' d) = od_set k v d.
Proof.
  induction d as [|[k0 v0] d IH]; simpl.
  - by rewrite decide_True.
  - destruct (decide (k = k0)) as [->|Hk0]; simpl.
    + by rewrite decide_True.
    + by rewrite decide_False, IH.
Qed.

Lemma od_set_Forall (P : string * V → Prop) k v d :
  P (k, v) → Forall P d → Forall P (od_set k v d).
Proof.
  intros Hkv. induction 1 as [|[k0 v0] d Hx Hd IH]; simpl.
  - by repeat constructor.
  - case_decide; constructor; auto.
Qed.
End ordered_dict.

Lemma routes_by_ext_step_eq d route :
  routes_by_ext_step d route
  = od_set (route_destination_extension route)
      (default [] (od_get (route_destination_extension route) d) ++ [route]) d.
Proof.
  unfold routes_by_ext_step.
  destruct (od_get (route_destination_extension route) d) eqn:Hd.
  - by rewrite Hd.
  - by rewrite od_get_set_eq, od_set_set.
Qed.

Lemma routes_by_ext_get routes ext :
  od_get ext (routes_by_ext routes)
  = match routes_of routes ext with
    | [] => None
    | group => Some group
    end.
Proof.
  unfold routes_by_ext, routes_of.
  induction routes as [|r l IH] using rev_ind; [done|].
  rewrite foldl_app, filter_app. simpl. rewrite routes_by_ext_step_eq.
  destruct (decide (route_destination_extension r = ext)) as [Hr|Hr].
  - rewrite Hr, od_get_set_eq, IH, filter_cons_True, filter_nil by done.
    by destruct (filter _ l).
  - rewrite od_get_set_ne, IH, filter_cons_False, filter_nil by done.
    by rewrite app_nil_r.
Qed.

Lemma routes_by_ext_nonempty routes :
  Forall (λ item, item.2 ≠ []) (routes_by_ext routes).
Proof.
  unfold routes_by_ext.
  induction routes as [|r l IH] using rev_ind; [constructor|].
  rewrite foldl_app. simpl. rewrite routes_by_ext_step_eq.
  apply od_set_Forall; [|done]. simpl. by intros [_ ?]%app_eq_nil.
Qed.

Lemma routes_by_ext_nil routes : routes_by_ext routes = [] ↔ routes = [].
Proof.
  split; [|by intros ->].
  destruct routes as [|r l]; [done|]. intros Hnil.
  pose proof (routes_by_ext_get (r :: l) (route_destination_extension r)) as Hget.
  rewrite Hnil in Hget. unfold routes_of in Hget.
  rewrite filter_cons_True in Hget by done. done.
Qed.

Lemma select_route_is_Some peer group : group ≠ [] → is_Some (select_route peer group).
Proof.
  destruct group as [|first rest]; [done|]. intros _. unfold select_route.
  destruct (peer ≫= _); eauto.
Qed.

(** The resolver never fails. *)
Lemma _build_outbound_map_total routes peers :
  is_Some (_build_outbound_map routes peers).
Proof.
  apply mapM_is_Some. eapply Forall_impl; [apply routes_by_ext_nonempty|].
  intros [ext group] Hgroup. simpl in *. unfold outbound_entry. simpl.
  destruct (select_route_is_Some (build_peer_map peers !! ext) group Hgroup)
    as [r ->].
  by eexists.
Qed.

Lemma outbound_entries_get peer_map d outbound ext :
  Forall2 (λ x y, outbound_entry peer_map x = Some y) d outbound →
  od_get ext outbound
  = group ← od_get ext d;
    selected_route ← select_route (peer_map !! ext) group;
    Some (mkOutboundInfo selected_route (peer_map !! ext ≫= peer_pai)).
Proof.
  induction 1 as [|[k group] [k' info] d outbound Hentry _ IH]; [done|].
  unfold outbound_entry in Hentry. simpl in *.
  destruct (select_route (peer_map !! k) group) as [r|] eqn:Hsel; [|done].
  simpl in Hentry. injection Hentry as <- <-.
  case_decide as Hk; [|done]. subst k. simpl. by rewrite Hsel.
Qed.

Lemma _build_outbound_map_get routes peers outbound ext :
  _build_outbound_map routes peers = Some outbound →
  od_get ext outbound
  = match routes_of routes ext with
    | [] => None
    | group =>
        selected_route ← select_route (peer_record peers ext) group;
        Some (mkOutboundInfo selected_route (peer_record peers ext ≫= peer_pai))
    end.
Proof.
  intros Hout%mapM_Some.
  rewrite (outbound_entries_get _ _ _ _ Hout), routes_by_ext_get.
  rewrite build_peer_map_lookup. by destruct (routes_of routes ext).
Qed.

Lemma find_first {A} (f : A → bool) (l : list A) (x : A) :
  find f l = Some x →
  ∃ pre post, l = pre ++ x :: post ∧ f x = true ∧ Forall (λ y, f y = false) pre.
Proof.
  induction l as [|y l IH]; [done|]. simpl.
  destruct (f y) eqn:Hy.
  - intros [= ->]. by exists [], l.
  - intros (pre & post & -> & Hx & Hpre)%IH.
    exists (y :: pre), post. split_and!; [done..|by constructor].
Qed.

Lemma find_absent {A} (f : A → bool) (l : list A) :
  find f l = None → Forall (λ y, f y = false) l.
Proof.
  induction l as [|y l IH]; [constructor|]. simpl.
  destruct (f y) eqn:Hy; [done|]. intros Hl. constructor; auto.
Qed.

(** C5. An extension that owns an inbound route has an entry in the
    outbound map.  The entry selects the first route of the extension in
    input order; when the peer record of the extension has a non-empty
    [outbound_cid] it selects instead the first route of the extension
    whose DID is that value, and the first route when no DID is.  The
    presence identity is the one of the peer record, and absent without a
    peer record.  (The peer record of an extension is the one the resolver
    keeps: the last peer with that extension.) *)
Theorem outbound_selection routes peers ext r0 :
  r0 ∈ routes →
  route_destination_extension r0 = ext →
  ∃ outbound first rest info,
    _build_outbound_map routes peers = Some outbound
    ∧ routes_of routes ext = first :: rest
    ∧ od_get ext outbound = Some info
    ∧ out_pai info = peer_record peers ext ≫= peer_pai
    ∧ (peer_record peers ext = None → out_route info = first)
    ∧ (∀ p, peer_record peers ext = Some p →
         peer_outbound_cid p = None ∨ peer_outbound_cid p = Some "" →
         out_route info = first)
    ∧ (∀ p cid, peer_record peers ext = Some p →
         peer_outbound_cid p = Some cid → cid ≠ "" →
         (∃ pre post,
             first :: rest = pre ++ out_route info :: post
             ∧ route_did (out_route info) = cid
             ∧ Forall (λ r, route_did r ≠ cid) pre)
         ∨ (Forall (λ r, route_did r ≠ cid) (first :: rest)
            ∧ out_route info = first)).
Proof.
  intros Hr0 Hext.
  destruct (_build_outbound_map_total routes peers) as [outbound Hout].
  pose proof (_build_outbound_map_get routes peers outbound ext Hout) as Hget.
  destruct (routes_of routes ext) as [|first rest] eqn:Hgroup.
  { exfalso. eapply (filter_nil_not_elem_of _ _ r0); [exact Hgroup|exact Hext|exact Hr0]. }
  unfold select_route in Hget.
  exists outbound, first, rest.
  destruct (peer_record peers ext) as [p|] eqn:Hp; cbn -[find] in Hget.
  - destruct (peer_outbound_cid p) as [cid|] eqn:Hcid; cbn -[find] in Hget.
    + destruct (decide (cid = "")) as [->|Hne]; cbn -[find] in Hget.
      * eexists. split_and!; [done..| |]; [by eauto|].
        intros p' cid' [= <-]. rewrite Hcid. by intros [= <-].
      * destruct (find (λ r, bool_decide (route_did r = cid)) (first :: rest))
          as [r|] eqn:Hfind; cbn -[find] in Hget.
        -- eexists. split_and!; [done..| |].
           { intros p' [= <-]. rewrite Hcid. by intros [|[= ->]]. }
           intros p' cid' [= <-]. rewrite Hcid. intros [= <-] _. left.
           apply find_first in Hfind as (pre & post & Hsplit & Hr & Hpre).
           exists pre, post. cbn -[find]. split_and!; [done| |].
           ++ by apply bool_decide_eq_true in Hr.
           ++ eapply Forall_impl; [exact Hpre|].
              intros y Hy. by apply bool_decide_eq_false in Hy.
        -- eexists. split_and!; [done..| |].
           { intros p' [= <-]. rewrite Hcid. by intros [|[= ->]]. }
           intros p' cid' [= <-]. rewrite Hcid. intros [= <-] _. right.
           split; [|done]. apply find_absent in Hfind.
           eapply Forall_impl; [exact Hfind|].
           intros y Hy. by apply bool_decide_eq_false in Hy.
    + eexists. split_and!; [done..| |]; [by eauto|].
      intros p' cid' [= <-]. by rewrite Hcid.
  - eexists. split_and!; done.
Qed.

Lemma od_keys_get {V} (d : list (string * V)) (k : string) :
  k ∈ od_keys d ↔ is_Some (od_get k d).
Proof.
  unfold od_keys. induction d as [|[k' v] d IH]; simpl.
  - split; [by intros ?%elem_of_nil|by intros [? ?]].
  - rewrite elem_of_cons, IH. case_decide as Hk; [|tauto].
    split; [by eauto|]. intros _. by left.
Qed.

Lemma outbound_map_keys routes peers outbound ext :
  _build_outbound_map routes peers = Some outbound →
  ext ∈ od_keys outbound
  ↔ ∃ r, r ∈ routes ∧ route_destination_extension r = ext.
Proof.
  intros Hout. rewrite od_keys_get, (_build_outbound_map_get _ _ _ _ Hout).
  destruct (routes_of routes ext) as [|first rest] eqn:Hgroup.
  - split; [by intros [? ?]|]. intros (r & Hr & Hext).
    by destruct (filter_nil_not_elem_of _ _ r Hgroup Hext).
  - split.
    + intros _. exists first.
      assert (first ∈ routes_of routes ext) as Hin by (rewrite Hgroup; left).
      apply list_elem_of_filter in Hin. tauto.
    + intros _.
      destruct (select_route_is_Some (peer_record peers ext) (first :: rest))
        as [r Hr]; [done|].
      rewrite Hr. by eexists.
Qed.

(** * Concatenation of texts *)

Lemma string_length_app (a b : string) :
  String.length (a +:+ b) = (String.length a + String.length b)%nat.
Proof. induction a as [|c a IH]; [done|]. simpl. by rewrite IH. Qed.

Lemma string_app_inj_length (a b x y : string) :
  String.length a = String.length b → a +:+ x = b +:+ y → a = b.
Proof.
  revert b. induction a as [|c a IH]; intros [|c' b] Hlen Heq; try done.
  injection Heq as -> Heq. injection Hlen as Hlen. f_equal. by apply IH.
Qed.

Lemma string_app_cons (x : ascii) (a b : string) :
  String x a +:+ b = String x (a +:+ b).
Proof. reflexivity. Qed.

Lemma string_app_assoc (a b c : string) : (a +:+ b) +:+ c = a +:+ b +:+ c.
Proof.
  induction a as [|x a IH]; [done|]. by rewrite !string_app_cons, IH.
Qed.

Lemma string_app_nil_r (a : string) : a +:+ "" = a.
Proof. induction a as [|x a IH]; [done|]. by rewrite string_app_cons, IH. Qed.

Lemma cat_app (l1 l2 : list string) : cat (l1 ++ l2) = cat l1 +:+ cat l2.
Proof.
  induction l1 as [|x l1 IH]; [done|]. simpl. by rewrite IH, string_app_assoc.
Qed.

Lemma cat_last_two (a b c d e f g h i : string) :
  cat [a; b; c; d; e; f; g; h; i] = cat [a; b; c; d; e; f; g] +:+ h +:+ i.
Proof.
  cbn [cat]. by rewrite !string_app_assoc, string_app_nil_r.
Qed.

Lemma cat_override_position (a b c d e f g h i : string) :
  cat [a; b; c; d; e; f; g; h; i] = cat [a; b; c] +:+ d +:+ cat [e; f; g; h; i].
Proof.
  cbn [cat]. by rewrite !string_app_assoc.
Qed.

Lemma string_app_middle (x before entry after y : string) :
  x +:+ (before +:+ entry +:+ after) +:+ y
  = (x +:+ before) +:+ entry +:+ (after +:+ y).
Proof. by rewrite !string_app_assoc. Qed.

Lemma cat_fmap_elem {A} (f : A → string) (l : list A) (x : A) :
  x ∈ l → ∃ before after, cat (f <$> l) = before +:+ f x +:+ after.
Proof.
  intros (l1 & l2 & ->)%list_elem_of_split.
  exists (cat (f <$> l1)), (cat (f <$> l2)).
  by rewrite fmap_app, cat_app.
Qed.

(** The header of a per-extension entry determines its extension. *)
Lemma override_header_inj ext1 ext2 :
  override_header ext1 = override_header ext2 → ext1 = ext2.
Proof.
  unfold override_header. intros Heq%(inj (String.app "exten => ")).
  eapply string_app_inj_length; [|exact Heq].
  apply (f_equal String.length) in Heq.
  rewrite !string_length_app in Heq. simpl in Heq. lia.
Qed.

(** * Properties of the compiler *)

Lemma sorted_spec o (s : gset string) :
  Sorted String.le (sorted o s) ∧ NoDup (sorted o s)
  ∧ ∀ x, x ∈ sorted o s ↔ x ∈ s.
Proof.
  unfold sorted.
  assert (merge_sort String.le (set_iter o s) ≡ₚ elements s) as Hperm.
  { by rewrite merge_sort_Permutation, set_iter_perm. }
  split_and!.
  - apply Sorted_merge_sort, _.
  - rewrite Hperm. apply NoDup_elements.
  - intros x. rewrite Hperm. apply elem_of_elements.
Qed.

(** The sorted list does not depend on the order the set is iterated in. *)
Lemma sorted_order_irrelevant o1 o2 (s : gset string) : sorted o1 s = sorted o2 s.
Proof.
  apply (Sorted_unique String.le); try apply sorted_spec.
  unfold sorted. by rewrite !merge_sort_Permutation, !set_iter_perm.
Qed.

Lemma elem_of_override_extensions fwd_map ring_timeout_map ext :
  ext ∈ override_extensions fwd_map ring_timeout_map
  ↔ ext ∈ dom fwd_map ∨ ext_ring ring_timeout_map ext ≠ 20.
Proof.
  unfold override_extensions, ext_ring.
  rewrite elem_of_union, (elem_of_dom (filter _ _)).
  apply or_iff_compat_l. split.
  - intros [t [Ht Hne]%map_lookup_filter_Some]. by rewrite Ht.
  - destruct (ring_timeout_map !! ext) as [t|] eqn:Ht; simpl; [|done].
    intros Hne. exists t. by apply map_lookup_filter_Some.
Qed.

(** The compiler never fails, and its text is the concatenation of the
    pieces in emission order. *)
Lemma generate_extensions_config_pieces o routes forwards mailboxes peers trunks :
  ∃ outbound_map,
    _build_outbound_map routes peers = Some outbound_map
    ∧ generate_extensions_config o routes forwards mailboxes peers trunks
      = Some (cat (config_pieces o (_build_forward_map (default [] forwards))
                     outbound_map (build_trunk_map trunks)
                     (_build_ring_timeout_map (default [] mailboxes)) routes)).
Proof.
  destruct (_build_outbound_map_total routes peers) as [outbound_map Hout].
  exists outbound_map. split; [done|].
  unfold generate_extensions_config. by rewrite Hout.
Qed.

(** C1. Two invocations on the same input collections return the same
    text, byte for byte: the compiler always returns a text, and the only
    source of variation between invocations, the order in which the set of
    override extensions is iterated, does not reach the output. *)
Theorem generate_extensions_config_deterministic
    o1 o2 routes forwards mailboxes peers trunks :
  ∃ text,
    generate_extensions_config o1 routes forwards mailboxes peers trunks = Some text
    ∧ generate_extensions_config o2 routes forwards mailboxes peers trunks = Some text.
Proof.
  destruct (generate_extensions_config_pieces o1 routes forwards mailboxes
              peers trunks) as (out1 & Hout1 & ->).
  destruct (generate_extensions_config_pieces o2 routes forwards mailboxes
              peers trunks) as (out2 & Hout2 & ->).
  rewrite Hout1 in Hout2. injection Hout2 as <-.
  eexists. split; [done|]. unfold config_pieces.
  by rewrite (sorted_order_irrelevant o2 o1).
Qed.

(** C4. The per-extension entries of the output are those of a list of
    extensions that is sorted lexicographically, has no duplicates, and
    holds exactly the keys of the forward map and the extensions whose
    resolved ring timeout is not 20.  The entry of an extension is its
    comment line, its header [exten => ext,1,NoOp(Call to ext with
    forwarding)], the caller-id line and the block of the synthesizer;
    the header determines the extension, so that the entries of the text
    are those of the list, one each. *)
Theorem override_set_correct o routes forwards mailboxes peers trunks :
  let fwd_map := _build_forward_map (default [] forwards) in
  let ring_timeout_map := _build_ring_timeout_map (default [] mailboxes) in
  ∃ exts outbound_map,
    generate_extensions_config o routes forwards mailboxes peers trunks
    = Some (cat [ config_header;
                  join nl internal_dial_lines;
                  nl +:+ nl;
                  cat (override_block fwd_map ring_timeout_map <$> exts);
                  outbound_section (build_trunk_map trunks) outbound_map;
                  static_section;
                  to_header_fallback;
                  inbound_section fwd_map ring_timeout_map routes;
                  catch_all ])
    ∧ Sorted String.le exts
    ∧ NoDup exts
    ∧ (∀ ext, ext ∈ exts
              ↔ ext ∈ dom fwd_map ∨ ext_ring ring_timeout_map ext ≠ 20)
    ∧ (∀ ext,
         override_block fwd_map ring_timeout_map ext
         = cat [ "; Extension " +:+ ext +:+ " - custom rules" +:+ nl;
                 ("exten => " +:+ ext +:+ ",1,NoOp(Call to " +:+ ext
                    +:+ " with forwarding)") +:+ nl;
                 " same => n,Set(CALLERID(name)=${CALLERID(name)})" +:+ nl;
                 _generate_dial_logic ext fwd_map
                   (ext_ring ring_timeout_map ext) false;
                 nl +:+ nl ])
    ∧ (∀ ext1 ext2,
         "exten => " +:+ ext1 +:+ ",1,NoOp(Call to " +:+ ext1 +:+ " with forwarding)"
         = "exten => " +:+ ext2 +:+ ",1,NoOp(Call to " +:+ ext2 +:+ " with forwarding)" →
         ext1 = ext2)
    ∧ NoDup ((λ ext, "exten => " +:+ ext +:+ ",1,NoOp(Call to " +:+ ext
                       +:+ " with forwarding)") <$> exts).
Proof.
  intros fwd_map ring_timeout_map.
  destruct (generate_extensions_config_pieces o routes forwards mailboxes
              peers trunks) as (outbound_map & _ & ->).
  exists (sorted o (override_extensions fwd_map ring_timeout_map)), outbound_map.
  destruct (sorted_spec o (override_extensions fwd_map ring_timeout_map))
    as (Hsorted & Hnodup & Hmem).
  split_and!; [done..| | | |].
  - intros ext. by rewrite Hmem, elem_of_override_extensions.
  - reflexivity.
  - exact override_header_inj.
  - assert (Inj (=) (=) override_header) as Hinj
      by (intros ext1 ext2; apply override_header_inj).
    by apply (NoDup_fmap_2 override_header).
Qed.

(** C6. The synthesizer emits [Answer()] and [Wait(0.5)] exactly when
    [early_answer] is set.  The compiler calls it three times: for the
    internal context and for every per-extension entry without
    [early_answer], so that the blocks it puts there hold no [Answer()];
    for every inbound route with [early_answer], so that the block of
    every per-route entry of the from-trunk context holds [Answer()]
    directly followed by [Wait(0.5)], with no device-state check and no
    [Dial] before them and no further [Answer()] after them. *)
Theorem early_answer_only_on_inbound o routes forwards mailboxes peers trunks :
  let fwd_map := _build_forward_map (default [] forwards) in
  let ring_timeout_map := _build_ring_timeout_map (default [] mailboxes) in
  let internal := dial_logic_lines "${EXTEN}" ∅ 20 false in
  let override ext :=
    dial_logic_lines ext fwd_map (ext_ring ring_timeout_map ext) false in
  let inbound route :=
    dial_logic_lines (route_destination_extension route) fwd_map
      (ext_ring ring_timeout_map (route_destination_extension route)) true in
  (∀ fm extension ring_time early_answer,
     List.filter (is_app "Answer")
       (dial_logic_lines extension fm ring_time early_answer) ≠ []
     ↔ early_answer = true)
  ∧ (∀ fm extension ring_time early_answer,
       List.filter (is_app "Wait")
         (dial_logic_lines extension fm ring_time early_answer) ≠ []
       ↔ early_answer = true)
  ∧ (∃ outbound_map,
       generate_extensions_config o routes forwards mailboxes peers trunks
       = Some (cat [ config_header;
                     join nl internal;
                     nl +:+ nl;
                     cat (override_block fwd_map ring_timeout_map
                            <$> sorted o (override_extensions fwd_map
                                            ring_timeout_map));
                     outbound_section (build_trunk_map trunks) outbound_map;
                     static_section;
                     to_header_fallback;
                     match routes with
                     | [] => no_routes_block
                     | _ :: _ =>
                         cat (inbound_block fwd_map ring_timeout_map <$> routes)
                     end;
                     catch_all ]))
  ∧ (∀ ext,
       override_block fwd_map ring_timeout_map ext
       = cat [ "; Extension " +:+ ext +:+ " - custom rules" +:+ nl;
               ("exten => " +:+ ext +:+ ",1,NoOp(Call to " +:+ ext
                  +:+ " with forwarding)") +:+ nl;
               " same => n,Set(CALLERID(name)=${CALLERID(name)})" +:+ nl;
               join nl (override ext);
               nl +:+ nl ])
  ∧ (∀ route,
       inbound_block fwd_map ring_timeout_map route
       = cat [ nl +:+ "; "
                 +:+ default (route_did route)
                       (truthy_str (route_description route)) +:+ nl;
               ("exten => " +:+ route_did route
                  +:+ ",1,NoOp(Inbound call to DID " +:+ route_did route
                  +:+ ")") +:+ nl;
               " same => n,Set(CALLERID(name)=${CALLERID(name)})" +:+ nl;
               join nl (inbound route);
               nl ])
  ∧ List.filter (is_app "Answer") internal = []
  ∧ (∀ ext, List.filter (is_app "Answer") (override ext) = [])
  ∧ (∀ route, ∃ pre post,
       inbound route
       = pre ++ [" same => n,Answer()"; " same => n,Wait(0.5)"] ++ post
       ∧ List.filter (is_app "Dial") pre = []
       ∧ List.filter is_device_state_check pre = []
       ∧ List.filter (is_app "Answer") post = []).
Proof.
  intros fwd_map ring_timeout_map internal override inbound.
  split_and!.
  - intros fm extension ring_time early_answer.
    rewrite dial_logic_lines_answer. by destruct early_answer.
  - intros fm extension ring_time early_answer.
    rewrite dial_logic_lines_wait. by destruct early_answer.
  - destruct (generate_extensions_config_pieces o routes forwards mailboxes
                peers trunks) as (outbound_map & _ & ->).
    by exists outbound_map.
  - reflexivity.
  - reflexivity.
  - reflexivity.
  - intros ext. unfold override. by rewrite dial_logic_lines_answer.
  - intros route. apply dial_logic_lines_early.
Qed.

(** ** Inbound headers *)

(** The header of an inbound entry determines the DID it is keyed on. *)
Lemma inbound_header_inj r1 r2 :
  inbound_header r1 = inbound_header r2 → route_did r1 = route_did r2.
Proof.
  unfold inbound_header. intros Heq%(inj (String.app "exten => ")).
  eapply string_app_inj_length; [|exact Heq].
  apply (f_equal String.length) in Heq.
  rewrite !string_length_app in Heq. simpl in Heq. lia.
Qed.

Lemma inbound_headers_NoDup routes :
  NoDup (inbound_header <$> routes) ↔ NoDup (route_did <$> routes).
Proof.
  induction routes as [|r l IH]; simpl; [by split; constructor|].
  rewrite !NoDup_cons, IH. apply and_iff_compat_r.
  rewrite !list_elem_of_fmap. split; intros Hnot (r' & Heq & Hr'); apply Hnot.
  - exists r'. split; [|done]. unfold inbound_header. by rewrite Heq.
  - exists r'. split; [|done]. by apply inbound_header_inj.
Qed.

(** C7, as stated, fails: two input routes with the same DID give two
    entries of the from-trunk context with the same pattern. *)
Lemma duplicate_did_duplicate_header :
  ¬ NoDup (inbound_header <$> [dup_route_a; dup_route_b])
  ∧ ∃ pre mid post,
      generate_extensions_config elements_order [dup_route_a; dup_route_b]
        None None None None
      = Some (pre +:+ "exten => 4912340,1,NoOp(Inbound call to DID 4912340)" +:+ nl
                +:+ mid
                +:+ "exten => 4912340,1,NoOp(Inbound call to DID 4912340)" +:+ nl
                +:+ post).
Proof.
  split.
  - intros Hnd. apply NoDup_cons in Hnd as [Hnot _]. apply Hnot. left.
  - exists
      (cat [ config_header; join nl internal_dial_lines; nl +:+ nl;
             outbound_section ∅
               [ ("1001", mkOutboundInfo dup_route_a None);
                 ("1002", mkOutboundInfo dup_route_b None) ];
             static_section; to_header_fallback;
             nl +:+ "; 4912340" +:+ nl ]),
      (cat [ " same => n,Set(CALLERID(name)=${CALLERID(name)})" +:+ nl;
             join nl (inbound_dial_lines ∅ ∅ dup_route_a); nl;
             nl +:+ "; 4912340" +:+ nl ]),
      (cat [ " same => n,Set(CALLERID(name)=${CALLERID(name)})" +:+ nl;
             join nl (inbound_dial_lines ∅ ∅ dup_route_b); nl;
             catch_all ]).
    vm_compute. reflexivity.
Qed.

(** C7, amended. The from-trunk context holds one entry per input route,
    keyed on the DID of the route, in input order: its headers are
    pairwise distinct exactly when the DIDs of the input routes are.  The
    catch-all comes after every per-route entry, at the end of the text. *)
Theorem inbound_headers_follow_dids o routes forwards mailboxes peers trunks :
  let fwd_map := _build_forward_map (default [] forwards) in
  let ring_timeout_map := _build_ring_timeout_map (default [] mailboxes) in
  (NoDup (inbound_header <$> routes) ↔ NoDup (route_did <$> routes))
  ∧ (∀ route, ∃ before after,
       inbound_block fwd_map ring_timeout_map route
       = before +:+ inbound_header route +:+ nl +:+ after)
  ∧ ∃ pre,
      generate_extensions_config o routes forwards mailboxes peers trunks
      = Some (pre
                +:+ match routes with
                    | [] => no_routes_block
                    | _ :: _ => cat (inbound_block fwd_map ring_timeout_map <$> routes)
                    end
                +:+ catch_all).
Proof.
  intros fwd_map ring_timeout_map. split_and!.
  - apply inbound_headers_NoDup.
  - intros route. unfold inbound_block.
    eexists _, (cat [_; _; _]). cbn [cat].
    rewrite (string_app_assoc (inbound_header route)). reflexivity.
  - destruct (generate_extensions_config_pieces o routes forwards mailboxes
                peers trunks) as (outbound_map & _ & ->).
    unfold config_pieces, inbound_section. fold fwd_map ring_timeout_map.
    eexists. f_equal. apply cat_last_two.
Qed.

(** ** Ring timeouts *)

Lemma resolve_ring_timeout_nonzero mb : resolve_ring_timeout mb ≠ 0.
Proof.
  unfold resolve_ring_timeout. destruct (mb_ring_timeout mb) as [t|]; [|done].
  by case_decide.
Qed.

Lemma ext_ring_nonzero mailboxes ext :
  ext_ring (_build_ring_timeout_map mailboxes) ext ≠ 0.
Proof.
  unfold ext_ring. rewrite ring_timeout_map_lookup.
  destruct (mailbox_record mailboxes ext) as [mb|]; simpl; [|done].
  apply resolve_ring_timeout_nonzero.
Qed.

(** C9. A mailbox whose [ring_timeout] is absent or 0 gets the 20 second
    default in the ring-timeout map, so that its extension has an entry of
    its own only if it is a key of the forward map; and no extension
    resolves to a ring timeout of 0.  (The mailbox record of an extension
    is the one the map keeps: the last mailbox with that extension.) *)
Theorem falsy_ring_timeout_defaults o fwd_map mailboxes mb :
  mailbox_record mailboxes (mb_extension mb) = Some mb →
  mb_ring_timeout mb = None ∨ mb_ring_timeout mb = Some 0 →
  let ring_timeout_map := _build_ring_timeout_map mailboxes in
  ring_timeout_map !! mb_extension mb = Some 20
  ∧ ext_ring ring_timeout_map (mb_extension mb) = 20
  ∧ (mb_extension mb ∈ sorted o (override_extensions fwd_map ring_timeout_map)
     ↔ mb_extension mb ∈ dom fwd_map)
  ∧ ∀ ext, ext_ring ring_timeout_map ext ≠ 0.
Proof.
  intros Hrecord Hfalsy ring_timeout_map.
  assert (ring_timeout_map !! mb_extension mb = Some 20) as Hlookup.
  { unfold ring_timeout_map. rewrite ring_timeout_map_lookup, Hrecord. simpl.
    unfold resolve_ring_timeout. by destruct Hfalsy as [-> | ->]. }
  assert (ext_ring ring_timeout_map (mb_extension mb) = 20) as Hring.
  { unfold ext_ring. by rewrite Hlookup. }
  split_and!; [done..| |].
  - destruct (sorted_spec o (override_extensions fwd_map ring_timeout_map))
      as (_ & _ & Hmem).
    rewrite Hmem, elem_of_override_extensions, Hring. tauto.
  - apply ext_ring_nonzero.
Qed.

(** ** Outbound contexts *)

(** C10. The outbound map has an entry for exactly the extensions that
    own an inbound route, whatever the peers; it is empty exactly when
    there is no inbound route, and then the text goes from the
    per-extension entries straight to the static extensions, with no
    outbound context and no no-service announcement. *)
Theorem outbound_map_follows_routes o routes forwards mailboxes peers trunks :
  let fwd_map := _build_forward_map (default [] forwards) in
  let ring_timeout_map := _build_ring_timeout_map (default [] mailboxes) in
  ∃ outbound_map,
    _build_outbound_map routes peers = Some outbound_map
    ∧ (outbound_map ≠ [] ↔ routes ≠ [])
    ∧ (∀ ext, ext ∈ od_keys outbound_map
              ↔ ∃ r, r ∈ routes ∧ route_destination_extension r = ext)
    ∧ _build_outbound_map [] peers = Some []
    ∧ outbound_section (build_trunk_map trunks) [] = ""
    ∧ generate_extensions_config o [] forwards mailboxes peers trunks
      = Some (cat [ config_header;
                    join nl internal_dial_lines;
                    nl +:+ nl;
                    cat (override_block fwd_map ring_timeout_map
                           <$> sorted o (override_extensions fwd_map ring_timeout_map));
                    "";
                    static_section;
                    to_header_fallback;
                    no_routes_block;
                    catch_all ]).
Proof.
  intros fwd_map ring_timeout_map.
  destruct (_build_outbound_map_total routes peers) as [outbound_map Hout].
  exists outbound_map. split_and!; [done| | |done..].
  - apply mapM_Some, Forall2_length in Hout.
    rewrite <- (routes_by_ext_nil routes).
    destruct outbound_map, (routes_by_ext routes); naive_solver.
  - intros ext. exact (outbound_map_keys routes peers outbound_map ext Hout).
Qed.

(** * Runs of the model on sample data *)

Lemma unconditional_forward_short_circuit_witness :
  forward_of (_build_forward_map sample_forwards) "1001" "unconditional"
  = Some sample_cfu
  ∧ let block :=
      dial_logic_lines "1001" (_build_forward_map sample_forwards) 20 true in
    block = [line_cfu_notice "0049301234"]
              ++ answer_lines true
              ++ [line_dial_trunk "0049301234" 20; line_hangup]
    ∧ List.filter is_device_state_check block = []
    ∧ List.filter (is_app "VoiceMail") block = []
    ∧ List.filter (is_app "GotoIf") block = []
    ∧ _generate_dial_logic "1001" (_build_forward_map sample_forwards) 20 true
      = join nl block.
Proof.
  assert (forward_of (_build_forward_map sample_forwards) "1001" "unconditional"
          = Some sample_cfu) as Hcfu by (vm_compute; reflexivity).
  split; [exact Hcfu|].
  exact (unconditional_forward_short_circuit "1001"
           (_build_forward_map sample_forwards) 20 sample_cfu true Hcfu).
Defined.


Lemma dial_durations_witness :
  forward_of (_build_forward_map sample_forwards) "1002" "unconditional" = None
  ∧ ∃ duration : string,
      read_int duration = Some 15
      ∧ List.filter (is_app "Dial")
          (dial_logic_lines "1002" (_build_forward_map sample_forwards) 20 true)
        = [ " same => n,Dial(PJSIP/1002," +:+ duration +:+ ",tTr)";
            " same => n,Dial(PJSIP/0049305555@trunk,30,tT)";
            " same => n,Dial(PJSIP/0049306666@trunk,30,tT)" ].
Proof.
  assert (forward_of (_build_forward_map sample_forwards) "1002" "unconditional"
          = None) as Hcfu by (vm_compute; reflexivity).
  split; [exact Hcfu|].
  destruct (dial_durations "1002" (_build_forward_map sample_forwards) 20 true
              Hcfu) as (duration & Hread & Hdials & _).
  exists duration. split; [exact Hread|exact Hdials].
Defined.

Lemma outbound_selection_witness :
  sample_route_1 ∈ sample_routes
  ∧ route_destination_extension sample_route_1 = "1001"
  ∧ ∃ outbound info,
      _build_outbound_map sample_routes (Some [sample_peer]) = Some outbound
      ∧ od_get "1001" outbound = Some info
      ∧ out_pai info = Some "4912341".
Proof.
  assert (sample_route_1 ∈ sample_routes) as Hin by left.
  split; [exact Hin|]. split; [reflexivity|].
  destruct (outbound_selection sample_routes (Some [sample_peer]) "1001"
              sample_route_1 Hin eq_refl)
    as (outbound & first & rest & info & Hout & _ & Hget & Hpai & _).
  exists outbound, info. split; [exact Hout|]. split; [exact Hget|exact Hpai].
Defined.

Lemma falsy_ring_timeout_defaults_witness :
  mailbox_record [sample_mailbox] "1003" = Some sample_mailbox
  ∧ mb_ring_timeout sample_mailbox = Some 0
  ∧ _build_ring_timeout_map [sample_mailbox] !! "1003" = Some 20.
Proof.
  split; [reflexivity|]. split; [reflexivity|].
  apply (falsy_ring_timeout_defaults elements_order ∅ [sample_mailbox]
           sample_mailbox eq_refl (or_intror eq_refl)).
Defined.

(** The example of the specification: two routes of one extension; the
    peer asks for the second DID, and without peer the first is taken. *)
Example outbound_cid_override :
  (_build_outbound_map sample_routes (Some [sample_peer])
   = Some [("1001", mkOutboundInfo sample_route_2 (Some "4912341"))])
  ∧ _build_outbound_map sample_routes None
    = Some [("1001", mkOutboundInfo sample_route_1 None)].
Proof. split; vm_compute; reflexivity. Qed.

(** * Further properties of the synthesizer *)

Section synthesizer_flow.
Variable extension : string.
Variable fwd_map : gmap string (gmap string CallForward).
Variable ring_time : Z.


(** X8. Every block ends with a hang-up, every [VoiceMail] instruction is
    directly followed by a hang-up, and no line follows a hang-up except a
    labelled one: control never runs from one branch into the next. *)
Theorem branches_end_in_hangup early_answer :
  let block := dial_logic_lines extension fwd_map ring_time early_answer in
  last block = Some line_hangup
  ∧ Forall (λ next, next = Some line_hangup)
      (next_after (is_app "VoiceMail") block)
  ∧ Forall (λ next, next = None ∨ is_Some (next ≫= instr_label))
      (next_after (is_app "Hangup") block).
Proof.
  intros block. subst block.
  destruct (forward_of fwd_map extension "unconditional") as [cfu|] eqn:Hcfu.
  - rewrite (dial_logic_lines_cfu _ _ _ cfu) by done.
    destruct early_answer; split_and!; try reflexivity;
      repeat constructor; by left.
  - rewrite dial_logic_lines_no_cfu by done.
    destruct (forward_of fwd_map extension "busy"),
      (forward_of fwd_map extension "no_answer"), early_answer;
      (split_and!; [reflexivity|repeat constructor|]);
      repeat (constructor; [first [by left | right; by eexists]|]);
      constructor.
Qed.

(** X9. What follows a [Dial]: the dial of the extension is followed by
    the jump on the dial status and the dial of a busy or no-answer
    forward by a [VoiceMail], so that a failed forward falls back to the
    mailbox; the dial of an unconditional forward is followed by the
    hang-up, without any voicemail fallback. *)
Theorem what_follows_a_dial early_answer :
  let block := dial_logic_lines extension fwd_map ring_time early_answer in
  (λ next, next ≫= instr_app) <$> next_after (is_app "Dial") block
  = match forward_of fwd_map extension "unconditional" with
    | Some _ => [Some "Hangup"]
    | None =>
        Some "GotoIf"
          :: ((λ _, Some "VoiceMail")
                <$> (option_list (forward_of fwd_map extension "no_answer")
                       ++ option_list (forward_of fwd_map extension "busy")))
    end.
Proof.
  intros block. subst block.
  destruct (forward_of fwd_map extension "unconditional") as [cfu|] eqn:Hcfu.
  - rewrite (dial_logic_lines_cfu _ _ _ cfu) by done.
    by destruct early_answer.
  - rewrite dial_logic_lines_no_cfu by done.
    destruct (forward_of fwd_map extension "busy"),
      (forward_of fwd_map extension "no_answer"), early_answer; reflexivity.
Qed.

End synthesizer_flow.

(** * Further properties of the lookup maps *)

(** X3. An extension without a mailbox has no entry in the ring-timeout
    map and rings for the default of 20 seconds; it gets an entry of its
    own in the dialplan only as a key of the forward map. *)
Theorem mailbox_absent_default o fwd_map mailboxes ext :
  (∀ mb, mb ∈ mailboxes → mb_extension mb ≠ ext) →
  let ring_timeout_map := _build_ring_timeout_map mailboxes in
  ring_timeout_map !! ext = None
  ∧ ext_ring ring_timeout_map ext = 20
  ∧ (ext ∈ sorted o (override_extensions fwd_map ring_timeout_map)
     ↔ ext ∈ dom fwd_map).
Proof.
  intros Hnone ring_timeout_map.
  assert (ring_timeout_map !! ext = None) as Hlookup.
  { unfold ring_timeout_map, mailbox_record.
    rewrite ring_timeout_map_lookup. unfold mailbox_record.
    rewrite filter_none; [done|]. intros mb Hmb. by apply Hnone. }
  assert (ext_ring ring_timeout_map ext = 20) as Hring.
  { unfold ext_ring. by rewrite Hlookup. }
  split_and!; [done..|].
  destruct (sorted_spec o (override_extensions fwd_map ring_timeout_map))
    as (_ & _ & Hmem).
  rewrite Hmem, elem_of_override_extensions, Hring. tauto.
Qed.

(** Every extension of the sorted override list has its entry in the
    text that the compiler returns. *)
Lemma override_entry_emitted o routes forwards mailboxes peers trunks ext :
  let fwd_map := _build_forward_map (default [] forwards) in
  let ring_timeout_map := _build_ring_timeout_map (default [] mailboxes) in
  ext ∈ sorted o (override_extensions fwd_map ring_timeout_map) →
  ∃ before after,
    generate_extensions_config o routes forwards mailboxes peers trunks
    = Some (before +:+ override_block fwd_map ring_timeout_map ext +:+ after).
Proof.
  intros fwd_map ring_timeout_map Hext.
  destruct (generate_extensions_config_pieces o routes forwards mailboxes
              peers trunks) as (outbound_map & _ & ->).
  unfold config_pieces. fold fwd_map ring_timeout_map.
  rewrite cat_override_position.
  destruct (cat_fmap_elem (override_block fwd_map ring_timeout_map) _ _ Hext)
    as (before & after & ->).
  eexists _, _. f_equal. apply string_app_middle.
Qed.

(** X4. A ring timeout that is given and not zero is kept as it is, also
    when it is negative: it is the ring time of the extension; the text
    of the compiler holds an entry for the extension exactly when the
    value is not 20 or the extension has a forward; and without
    unconditional and no-answer forward that entry is the comment, the
    header and the caller-id line followed, with no [Answer()] before,
    by the device-state check and the dial of the extension for the
    decimal numeral of exactly this value. *)
Theorem explicit_ring_timeout_kept o routes forwards mailboxes peers trunks mb t :
  mailbox_record (default [] mailboxes) (mb_extension mb) = Some mb →
  mb_ring_timeout mb = Some t →
  t ≠ 0 →
  let fwd_map := _build_forward_map (default [] forwards) in
  let ring_timeout_map := _build_ring_timeout_map (default [] mailboxes) in
  let ext := mb_extension mb in
  ext_ring ring_timeout_map ext = t
  ∧ (ext ∈ sorted o (override_extensions fwd_map ring_timeout_map)
     ↔ ext ∈ dom fwd_map ∨ t ≠ 20)
  ∧ (ext ∈ dom fwd_map ∨ t ≠ 20 →
     ∃ before after,
       generate_extensions_config o routes forwards mailboxes peers trunks
       = Some (before +:+ override_block fwd_map ring_timeout_map ext +:+ after))
  ∧ (forward_of fwd_map ext "unconditional" = None →
     forward_of fwd_map ext "no_answer" = None →
     ∃ duration : string,
       read_int duration = Some t
       ∧ override_block fwd_map ring_timeout_map ext
         = cat [ "; Extension " +:+ ext +:+ " - custom rules" +:+ nl;
                 ("exten => " +:+ ext +:+ ",1,NoOp(Call to " +:+ ext
                    +:+ " with forwarding)") +:+ nl;
                 " same => n,Set(CALLERID(name)=${CALLERID(name)})" +:+ nl;
                 join nl
                   ([ line_set_device_state ext;
                      line_goto_unavail "UNAVAILABLE";
                      line_goto_unavail "INVALID";
                      " same => n,Dial(PJSIP/" +:+ ext +:+ "," +:+ duration
                        +:+ ",tTr)" ]
                    ++ outcome_lines ext (forward_of fwd_map ext "busy") None);
                 nl +:+ nl ]).
Proof.
  intros Hrecord Ht Hnz fwd_map ring_timeout_map ext.
  assert (ext_ring ring_timeout_map ext = t) as Hring.
  { unfold ext_ring, ring_timeout_map, ext.
    rewrite ring_timeout_map_lookup, Hrecord. simpl.
    unfold resolve_ring_timeout. rewrite Ht. by case_decide. }
  assert (ext ∈ sorted o (override_extensions fwd_map ring_timeout_map)
          ↔ ext ∈ dom fwd_map ∨ t ≠ 20) as Hmember.
  { destruct (sorted_spec o (override_extensions fwd_map ring_timeout_map))
      as (_ & _ & Hmem).
    by rewrite Hmem, elem_of_override_extensions, Hring. }
  split_and!; [done..| |].
  - intros Hext%Hmember.
    exact (override_entry_emitted o routes forwards mailboxes peers trunks ext Hext).
  - intros Hcfu Hcfna. exists (str_int t). split; [apply read_int_str_int|].
    unfold override_block, override_dial_lines.
    rewrite dial_logic_lines_no_cfu by done. rewrite Hcfna, Hring.
    reflexivity.
Qed.

(** * Further properties of the outbound route resolver *)

Lemma od_get_elem {V} (d : list (string * V)) k v :
  od_get k d = Some v → (k, v) ∈ d.
Proof.
  induction d as [|[k' v'] d IH]; [done|]. simpl.
  case_decide as Hk; [|right; auto]. intros [= ->]. subst. left.
Qed.

Lemma od_keys_cons {V} k (v : V) d : od_keys ((k, v) :: d) = k :: od_keys d.
Proof. reflexivity. Qed.

Lemma od_keys_set {V} k (v : V) d :
  od_keys (od_set k v d)
  = if decide (k ∈ od_keys d) then od_keys d else od_keys d ++ [k].
Proof.
  induction d as [|[k' v'] d IH]; [done|]. cbn [od_set].
  destruct (decide (k = k')) as [->|Hk]; rewrite !od_keys_cons.
  - rewrite decide_True; [done|]. left.
  - rewrite IH. destruct (decide (k ∈ od_keys d)) as [Hin|Hin].
    + rewrite decide_True; [done|]. by right.
    + rewrite decide_False; [done|]. by intros [?|?]%elem_of_cons.
Qed.

Lemma od_keys_routes_by_ext_step d route :
  od_keys (routes_by_ext_step d route)
  = if decide (route_destination_extension route ∈ od_keys d)
    then od_keys d
    else od_keys d ++ [route_destination_extension route].
Proof. rewrite routes_by_ext_step_eq. apply od_keys_set. Qed.

Lemma filter_every {A} (P : A → Prop) `{!∀ x, Decision (P x)} (l : list A) :
  (∀ x, x ∈ l → P x) → filter P l = l.
Proof.
  induction l as [|x l IH]; intros Hl; [done|].
  rewrite filter_cons_True by (apply Hl; left).
  f_equal. apply IH. intros y Hy. apply Hl. by right.
Qed.

Lemma filter_first_occurrences (P : string → Prop) `{!∀ x, Decision (P x)} l :
  filter P (first_occurrences l) = first_occurrences (filter P l).
Proof.
  induction l as [|x l IH]; [done|]. cbn [first_occurrences].
  rewrite !(filter_cons _ x). destruct (decide (P x)) as [HP|HP].
  - cbn [first_occurrences]. f_equal. rewrite <- IH, !list_filter_filter.
    apply list_filter_iff. tauto.
  - rewrite <- IH, list_filter_filter. apply list_filter_iff.
    intros y. split; [tauto|]. intros Hy. split; [done|]. by intros ->.
Qed.

Lemma elem_of_first_occurrences l x : x ∈ first_occurrences l ↔ x ∈ l.
Proof.
  induction l as [|y l IH]; [done|]. cbn [first_occurrences].
  rewrite !elem_of_cons, list_elem_of_filter, IH.
  destruct (decide (x = y)); tauto.
Qed.

Lemma NoDup_first_occurrences l : NoDup (first_occurrences l).
Proof.
  induction l as [|y l IH]; cbn [first_occurrences]; [constructor|].
  apply NoDup_cons. split.
  - intros [Hne _]%list_elem_of_filter. done.
  - by apply NoDup_filter.
Qed.

Lemma od_keys_routes_fold d routes :
  od_keys (foldl routes_by_ext_step d routes)
  = od_keys d
      ++ first_occurrences
           (filter (λ k, k ∉ od_keys d) (route_destination_extension <$> routes)).
Proof.
  revert d. induction routes as [|r l IH]; intros d; simpl.
  - by rewrite app_nil_r.
  - rewrite IH, od_keys_routes_by_ext_step, filter_cons.
    destruct (decide (route_destination_extension r ∈ od_keys d)) as [Hin|Hin].
    + by rewrite decide_False by (intros Hnot; done).
    + rewrite decide_True by done. cbn [first_occurrences].
      rewrite <- app_assoc. cbn [app].
      do 2 f_equal. rewrite filter_first_occurrences. f_equal.
      rewrite list_filter_filter. apply list_filter_iff. intros k.
      rewrite elem_of_app, list_elem_of_singleton. tauto.
Qed.

Lemma outbound_entries_keys peer_map d outbound :
  Forall2 (λ x y, outbound_entry peer_map x = Some y) d outbound →
  od_keys outbound = od_keys d.
Proof.
  induction 1 as [|[k g] [k' info] d outbound Hentry _ IH]; [done|].
  rewrite !od_keys_cons, IH. f_equal.
  unfold outbound_entry in Hentry. cbn [fst snd] in Hentry.
  destruct (select_route _ _); [|done]. by injection Hentry as <- _.
Qed.

(** X5. The outbound map has one entry for each extension that owns a
    route, in the order in which the extensions first occur among the
    routes; this is the order of the jumps and of the targets in both
    outbound contexts. *)
Theorem outbound_keys_first_occurrence routes peers :
  ∃ outbound,
    _build_outbound_map routes peers = Some outbound
    ∧ od_keys outbound
      = first_occurrences (route_destination_extension <$> routes)
    ∧ NoDup (od_keys outbound).
Proof.
  destruct (_build_outbound_map_total routes peers) as [outbound Hout].
  exists outbound. split; [done|].
  assert (od_keys outbound
          = first_occurrences (route_destination_extension <$> routes)) as ->.
  { apply mapM_Some in Hout. rewrite (outbound_entries_keys _ _ _ Hout).
    unfold routes_by_ext. rewrite od_keys_routes_fold. simpl. f_equal.
    apply filter_every. intros k _. apply not_elem_of_nil. }
  split; [done|]. apply NoDup_first_occurrences.
Qed.

Lemma select_route_elem peer group r : select_route peer group = Some r → r ∈ group.
Proof.
  destruct group as [|first rest]; [done|]. unfold select_route.
  destruct (peer ≫= _) as [cid|]; [|intros [= <-]; left].
  destruct (find _ _) as [r'|] eqn:Hfind; simpl; intros [= <-]; [|left].
  apply find_first in Hfind as (pre & post & -> & _).
  apply elem_of_app. right. left.
Qed.

Lemma routes_by_ext_groups routes :
  Forall (λ item,
            Forall (λ r, r ∈ routes ∧ route_destination_extension r = item.1) item.2)
    (routes_by_ext routes).
Proof.
  unfold routes_by_ext.
  induction routes as [|x l IH] using rev_ind; [constructor|].
  rewrite foldl_app. simpl. rewrite routes_by_ext_step_eq.
  assert (Forall (λ item,
            Forall (λ r, r ∈ l ++ [x] ∧ route_destination_extension r = item.1)
              item.2) (foldl routes_by_ext_step [] l)) as IH'.
  { eapply Forall_impl; [exact IH|]. intros item Hitem.
    eapply Forall_impl; [exact Hitem|]. intros r [Hr ?]. split; [|done].
    apply elem_of_app. by left. }
  apply od_set_Forall; [|done]. simpl. apply Forall_app. split.
  - destruct (od_get _ _) as [g|] eqn:Hg; simpl; [|constructor].
    apply od_get_elem in Hg.
    by apply (proj1 (Forall_forall _ _) IH' _ Hg).
  - constructor; [|constructor]. split; [|done].
    apply elem_of_app. right. left.
Qed.

Lemma outbound_entries_own peer_map (all : list InboundRoute) d outbound :
  Forall2 (λ x y, outbound_entry peer_map x = Some y) d outbound →
  Forall (λ item,
            Forall (λ r, r ∈ all ∧ route_destination_extension r = item.1) item.2)
    d →
  Forall (λ item,
            out_route item.2 ∈ all
            ∧ route_destination_extension (out_route item.2) = item.1)
    outbound.
Proof.
  induction 1 as [|[k g] [k' info] d outbound Hentry _ IH];
    intros Hgroups; [constructor|].
  apply Forall_cons in Hgroups as [Hg Hgroups].
  constructor; [|by apply IH].
  unfold outbound_entry in Hentry. cbn [fst snd] in *.
  destruct (select_route _ g) as [r|] eqn:Hsel; [|done].
  injection Hentry as <- <-. cbn [out_route].
  apply select_route_elem in Hsel.
  by apply (proj1 (Forall_forall _ _) Hg).
Qed.

(** X6. Every entry of the outbound map selects one of the input routes
    of its own extension: an [outbound_cid] that is the DID of a route of
    another extension is never honoured. *)
Theorem outbound_route_of_own_extension routes peers :
  ∃ outbound,
    _build_outbound_map routes peers = Some outbound
    ∧ Forall (λ item,
                out_route item.2 ∈ routes
                ∧ route_destination_extension (out_route item.2) = item.1)
        outbound.
Proof.
  destruct (_build_outbound_map_total routes peers) as [outbound Hout].
  exists outbound. split; [done|]. apply mapM_Some in Hout.
  eapply outbound_entries_own; [exact Hout|]. apply routes_by_ext_groups.
Qed.

(** * Further properties of the compiler *)

(** X11. Setting [early_answer] only inserts the two lines [Answer()] and
    [Wait(0.5)]: with them removed, the block of an inbound route is the
    block that the same extension gets for internal calls with the same
    ring time. *)
Theorem early_answer_only_inserts extension fwd_map ring_time :
  List.filter (λ line, negb (is_app "Answer" line || is_app "Wait" line))
    (dial_logic_lines extension fwd_map ring_time true)
  = dial_logic_lines extension fwd_map ring_time false.
Proof.
  destruct (forward_of fwd_map extension "unconditional") as [cfu|] eqn:Hcfu.
  - by rewrite !(dial_logic_lines_cfu _ _ _ cfu) by done.
  - rewrite !dial_logic_lines_no_cfu by done.
    destruct (forward_of fwd_map extension "busy"),
      (forward_of fwd_map extension "no_answer"); reflexivity.
Qed.

Lemma mapM_agree {A B} (f g : A → option B) (l : list A) :
  Forall (λ x, f x = g x) l → mapM f l = mapM g l.
Proof.
  induction 1 as [|x l Hx _ IH]; [done|]. cbn [mapM]. by rewrite Hx, IH.
Qed.

Lemma outbound_entries_pai peer_map d outbound :
  Forall2 (λ x y, outbound_entry peer_map x = Some y) d outbound →
  Forall (λ item, out_pai item.2 = peer_map !! item.1 ≫= peer_pai) outbound.
Proof.
  induction 1 as [|[k g] [k' info] d outbound Hentry _ IH]; constructor; [|done].
  unfold outbound_entry in Hentry. cbn [fst snd] in *.
  destruct (select_route _ g) as [r|]; [|done]. by injection Hentry as <- <-.
Qed.

Lemma peer_record_elem peers ext p :
  peer_record peers ext = Some p → p ∈ default [] peers.
Proof.
  unfold peer_record. intros Hp%last_Some_elem_of.
  apply list_elem_of_filter in Hp. tauto.
Qed.

(** X10. The trunks reach the text only through the presence identity:
    when no peer has a non-empty [pai], the compiler returns the same text
    whatever trunks it is given. *)
Theorem trunks_matter_only_for_pai o routes forwards mailboxes peers trunks1 trunks2 :
  Forall (λ p, peer_pai p = None ∨ peer_pai p = Some "") (default [] peers) →
  generate_extensions_config o routes forwards mailboxes peers trunks1
  = generate_extensions_config o routes forwards mailboxes peers trunks2.
Proof.
  intros Hpai.
  destruct (generate_extensions_config_pieces o routes forwards mailboxes
              peers trunks1) as (out1 & Hout1 & ->).
  destruct (generate_extensions_config_pieces o routes forwards mailboxes
              peers trunks2) as (out2 & Hout2 & ->).
  rewrite Hout1 in Hout2. injection Hout2 as <-.
  assert (outbound_target (build_trunk_map trunks1) <$> out1
          = outbound_target (build_trunk_map trunks2) <$> out1) as Htargets.
  { apply mapM_Some, outbound_entries_pai in Hout1.
    apply Forall_fmap_ext. eapply Forall_impl; [exact Hout1|].
    intros [k info] Hinfo. unfold outbound_target. cbn [fst snd] in *.
    rewrite Hinfo, build_peer_map_lookup.
    destruct (peer_record peers k) as [p|] eqn:Hp; [|done]. cbn.
    apply peer_record_elem in Hp.
    destruct (proj1 (Forall_forall _ _) Hpai p Hp) as [-> | ->]; done. }
  assert (outbound_section (build_trunk_map trunks1) out1
          = outbound_section (build_trunk_map trunks2) out1) as Hsection.
  { unfold outbound_section. destruct out1; [done|]. by rewrite Htargets. }
  unfold config_pieces. rewrite Hsection. reflexivity.
Qed.

Lemma last_filter_restrict {A} (P Q : A → Prop)
    `{!∀ x, Decision (P x)} `{!∀ x, Decision (Q x)} (l : list A) :
  (∀ x, P x → Q x) → filter P (filter Q l) = filter P l.
Proof.
  intros HPQ. rewrite list_filter_filter. apply list_filter_iff.
  intros x. split; [tauto|]. auto.
Qed.

Lemma peer_record_Some peers ext :
  peer_record (Some peers) ext = last (filter (λ p, peer_extension p = ext) peers).
Proof. reflexivity. Qed.

(** X12. Only the peers of extensions that own a route reach the text:
    dropping every other peer from the input leaves the text unchanged. *)
Theorem peers_without_routes_ignored o routes forwards mailboxes peers trunks :
  generate_extensions_config o routes forwards mailboxes (Some peers) trunks
  = generate_extensions_config o routes forwards mailboxes
      (Some (filter (λ p, peer_extension p
                          ∈ route_destination_extension <$> routes) peers))
      trunks.
Proof.
  unfold generate_extensions_config.
  assert (_build_outbound_map routes (Some peers)
          = _build_outbound_map routes
              (Some (filter (λ p, peer_extension p
                                  ∈ route_destination_extension <$> routes) peers)))
    as ->; [|done].
  unfold _build_outbound_map. apply mapM_agree.
  eapply Forall_impl; [apply routes_by_ext_groups|].
  intros [k g] Hg. cbn [fst snd] in Hg.
  pose proof (routes_by_ext_nonempty routes) as Hne.
  destruct (decide (g = [])) as [->|Hg'].
  { unfold outbound_entry. cbn [fst snd]. done. }
  assert (k ∈ route_destination_extension <$> routes) as Hk.
  { destruct g as [|r g]; [done|]. apply Forall_cons in Hg as [[Hr <-] _].
    by apply list_elem_of_fmap_2. }
  unfold outbound_entry. cbn [fst snd].
  rewrite !build_peer_map_lookup, !peer_record_Some.
  rewrite last_filter_restrict; [done|]. by intros p ->.
Qed.

Lemma cat_skip_empty (a b c d e f g : string) :
  cat [a; b; c; ""; ""; d; e; f; g] = cat [a; b; c; d; e; f; g].
Proof. reflexivity. Qed.

Lemma default_ring_everywhere mailboxes ext :
  Forall (λ mb, mb_ring_timeout mb = None ∨ mb_ring_timeout mb = Some 0
                ∨ mb_ring_timeout mb = Some 20) mailboxes →
  ext_ring (_build_ring_timeout_map mailboxes) ext = 20.
Proof.
  intros Hall. unfold ext_ring. rewrite ring_timeout_map_lookup.
  destruct (mailbox_record mailboxes ext) as [mb|] eqn:Hmb; [|done].
  unfold mailbox_record in Hmb. apply last_Some_elem_of in Hmb.
  apply list_elem_of_filter in Hmb as [_ Hmb].
  cbn. unfold resolve_ring_timeout.
  destruct (proj1 (Forall_forall _ _) Hall mb Hmb) as [-> | [-> | ->]]; done.
Qed.

(** X13. Without routes and forwards, and with mailboxes whose ring
    timeout is absent, 0 or 20, the compiler returns the minimal document:
    the header, the internal context, the static extensions, the header
    fallback, the block for unrouted calls and the catch-all, whatever the
    peers and trunks. *)
Theorem minimal_document o forwards mailboxes peers trunks :
  default [] forwards = [] →
  Forall (λ mb, mb_ring_timeout mb = None ∨ mb_ring_timeout mb = Some 0
                ∨ mb_ring_timeout mb = Some 20) (default [] mailboxes) →
  generate_extensions_config o [] forwards mailboxes peers trunks
  = Some (cat [ config_header;
                join nl internal_dial_lines;
                nl +:+ nl;
                static_section;
                to_header_fallback;
                no_routes_block;
                catch_all ]).
Proof.
  intros Hfwd Hmb. unfold generate_extensions_config. rewrite Hfwd.
  cbn [_build_outbound_map routes_by_ext foldl mapM mbind option_bind mret option_ret].
  f_equal. unfold config_pieces.
  assert (sorted o (override_extensions (_build_forward_map [])
                      (_build_ring_timeout_map (default [] mailboxes))) = [])
    as ->.
  { destruct (sorted_spec o (override_extensions (_build_forward_map [])
                (_build_ring_timeout_map (default [] mailboxes))))
      as (_ & _ & Hmem).
    destruct (sorted o _) as [|x l]; [done|]. exfalso.
    assert (x ∈ x :: l) as Hx by left.
    apply Hmem, elem_of_override_extensions in Hx as [Hx|Hx].
    - unfold _build_forward_map in Hx. cbn [foldl] in Hx.
      rewrite dom_empty_L in Hx. by apply elem_of_empty in Hx.
    - by rewrite default_ring_everywhere in Hx. }
  apply cat_skip_empty.
Qed.

(** ** Runs of the further properties on sample data *)


Lemma mailbox_absent_default_witness :
  (∀ mb, mb ∈ [sample_mailbox] → mb_extension mb ≠ "1001")
  ∧ ext_ring (_build_ring_timeout_map [sample_mailbox]) "1001" = 20.
Proof.
  assert (∀ mb, mb ∈ [sample_mailbox] → mb_extension mb ≠ "1001") as Hnone.
  { intros mb Hmb%list_elem_of_singleton. subst mb. discriminate. }
  split; [exact Hnone|].
  apply (mailbox_absent_default elements_order ∅ [sample_mailbox] "1001" Hnone).
Defined.

Lemma explicit_ring_timeout_kept_witness :
  mailbox_record [sample_mailbox; sample_mailbox_negative] "1004"
  = Some sample_mailbox_negative
  ∧ mb_ring_timeout sample_mailbox_negative = Some (-5)
  ∧ (∃ before after,
       generate_extensions_config elements_order [] None
         (Some [sample_mailbox; sample_mailbox_negative]) None None
       = Some (before
                 +:+ override_block ∅
                       (_build_ring_timeout_map
                          [sample_mailbox; sample_mailbox_negative]) "1004"
                 +:+ after))
  ∧ ∃ duration : string,
      read_int duration = Some (-5)
      ∧ override_block ∅
          (_build_ring_timeout_map [sample_mailbox; sample_mailbox_negative])
          "1004"
        = cat [ "; Extension 1004 - custom rules" +:+ nl;
                "exten => 1004,1,NoOp(Call to 1004 with forwarding)" +:+ nl;
                " same => n,Set(CALLERID(name)=${CALLERID(name)})" +:+ nl;
                join nl
                  ([ line_set_device_state "1004";
                     line_goto_unavail "UNAVAILABLE";
                     line_goto_unavail "INVALID";
                     " same => n,Dial(PJSIP/1004," +:+ duration +:+ ",tTr)" ]
                   ++ outcome_lines "1004" None None);
                nl +:+ nl ].
Proof.
  assert (mailbox_record [sample_mailbox; sample_mailbox_negative] "1004"
          = Some sample_mailbox_negative) as Hrecord by reflexivity.
  assert ((-5 : Z) ≠ 0) as Hnz by discriminate.
  split; [exact Hrecord|]. split; [reflexivity|].
  destruct (explicit_ring_timeout_kept elements_order [] None
              (Some [sample_mailbox; sample_mailbox_negative]) None None
              sample_mailbox_negative (-5) Hrecord eq_refl Hnz)
    as (_ & _ & Hemitted & Hentry).
  split.
  - apply Hemitted. right. discriminate.
  - destruct (Hentry eq_refl eq_refl) as (duration & Hread & Hblock).
    exists duration. split; [exact Hread|exact Hblock].
Defined.

Lemma trunks_matter_only_for_pai_witness :
  Forall (λ p, peer_pai p = None ∨ peer_pai p = Some "") [sample_peer_plain]
  ∧ generate_extensions_config elements_order sample_routes None None
      (Some [sample_peer_plain]) (Some [sample_trunk])
    = generate_extensions_config elements_order sample_routes None None
        (Some [sample_peer_plain]) None.
Proof.
  assert (Forall (λ p, peer_pai p = None ∨ peer_pai p = Some "")
            [sample_peer_plain]) as Hpai.
  { constructor; [by left|constructor]. }
  split; [exact Hpai|].
  exact (trunks_matter_only_for_pai elements_order sample_routes None None
           (Some [sample_peer_plain]) (Some [sample_trunk]) None Hpai).
Defined.

Lemma minimal_document_witness :
  Forall (λ mb, mb_ring_timeout mb = None ∨ mb_ring_timeout mb = Some 0
                ∨ mb_ring_timeout mb = Some 20) [sample_mailbox]
  ∧ generate_extensions_config elements_order [] (Some []) (Some [sample_mailbox])
      (Some [sample_peer]) (Some [sample_trunk])
    = Some (cat [ config_header;
                  join nl internal_dial_lines;
                  nl +:+ nl;
                  static_section;
                  to_header_fallback;
                  no_routes_block;
                  catch_all ]).
Proof.
  assert (Forall (λ mb, mb_ring_timeout mb = None ∨ mb_ring_timeout mb = Some 0
                        ∨ mb_ring_timeout mb = Some 20) [sample_mailbox]) as Hmb.
  { constructor; [right; by left|constructor]. }
  split; [exact Hmb|].
  exact (minimal_document elements_order (Some []) (Some [sample_mailbox])
           (Some [sample_peer]) (Some [sample_trunk]) eq_refl Hmb).
Defined.

(** * Writing the dialplan *)

(** X14. [write_extensions_config] fails only when a call into the file
    system fails, never because the dialplan cannot be generated: its
    result is the success of creating the directory [/etc/asterisk/custom]
    and of writing the file, and when it returns [True] the file
    [/etc/asterisk/custom/extensions.conf] holds the generated text. *)
Theorem write_extensions_config_result `{FileSystem fs} o routes forwards
    mailboxes peers trunks (s : fs) :
  ∃ config_content,
    generate_extensions_config o routes forwards mailboxes peers trunks
    = Some config_content
    ∧ let made := fs_makedirs "/etc/asterisk/custom" s in
      let written := fs_write EXTENSIONS_CONFIG_PATH config_content made.1 in
      let result :=
        write_extensions_config o routes forwards mailboxes peers trunks s in
      result.2 = made.2 && written.2
      ∧ (result.2 = true →
         fs_read EXTENSIONS_CONFIG_PATH result.1 = Some config_content).
Proof.
  destruct (generate_extensions_config_pieces o routes forwards mailboxes
              peers trunks) as (outbound_map & _ & Hgen).
  eexists. split; [exact Hgen|]. unfold write_extensions_config.
  rewrite Hgen.
  change (os_path_dirname EXTENSIONS_CONFIG_PATH) with "/etc/asterisk/custom".
  destruct (fs_makedirs "/etc/asterisk/custom" s) as [s1 made].
  destruct made; cbn [fst snd andb]; [|by split].
  destruct (fs_write EXTENSIONS_CONFIG_PATH _ s1) as [s2 written] eqn:Hwrite.
  cbn [fst snd]. split; [done|]. intros ->. by eapply fs_write_read.
Qed.

(** * Settings router *)

Lemma query_set_setting_value db key value :
  stored (set_setting_value db key value) key
  = (λ _, value) <$> query_setting db key.
Proof.
  unfold stored, query_setting.
  induction db as [|row db IH]; [done|]. cbn [set_setting_value find].
  destruct (decide (setting_key row = key)) as [Hk|Hk].
  - cbn [find setting_key]. by rewrite !bool_decide_eq_true_2.
  - cbn [find]. by rewrite !bool_decide_eq_false_2.
Qed.

Lemma query_set_setting_value_ne db key key' value :
  key ≠ key' →
  query_setting (set_setting_value db key value) key' = query_setting db key'.
Proof.
  intros Hne. unfold query_setting.
  induction db as [|row db IH]; [done|]. cbn [set_setting_value find].
  destruct (decide (setting_key row = key)) as [Hk|Hk].
  - cbn [find setting_key]. rewrite !bool_decide_eq_false_2; congruence.
  - cbn [find]. by rewrite IH.
Qed.

Lemma query_setting_app db1 db2 key :
  query_setting (db1 ++ db2) key
  = match query_setting db1 key with
    | Some row => Some row
    | None => query_setting db2 key
    end.
Proof.
  unfold query_setting. induction db1 as [|row db1 IH]; [done|].
  cbn [app find]. by destruct (bool_decide _).
Qed.

(** After the query and the assignment or [db.add], the key holds the
    value, and the other keys hold what they held. *)
Lemma stored_upsert db key value description :
  stored (upsert_setting db key value description) key = Some value.
Proof.
  unfold upsert_setting.
  destruct (query_setting db key) as [row|] eqn:Hrow.
  - by rewrite query_set_setting_value, Hrow.
  - unfold stored. rewrite query_setting_app, Hrow. unfold query_setting.
    cbn [find setting_key]. by rewrite bool_decide_eq_true_2.
Qed.

Lemma stored_upsert_ne db key key' value description :
  key ≠ key' →
  stored (upsert_setting db key value description) key' = stored db key'.
Proof.
  intros Hne. unfold upsert_setting, stored.
  destruct (query_setting db key) as [row|] eqn:Hrow.
  - by rewrite query_set_setting_value_ne.
  - rewrite query_setting_app. destruct (query_setting db key'); [done|].
    unfold query_setting. cbn [find setting_key].
    by rewrite bool_decide_eq_false_2.
Qed.

Lemma od_set_fresh {V} (d : list (string * V)) k v :
  k ∉ od_keys d → od_set k v d = d ++ [(k, v)].
Proof.
  induction d as [|[k' v'] d IH]; [done|]. rewrite od_keys_cons.
  intros Hk. cbn [od_set app]. rewrite decide_False.
  - rewrite IH; [done|]. intros Hin. apply Hk. by right.
  - intros ->. apply Hk. left.
Qed.

(** Filling a dictionary under distinct keys lists the entries in the
    order of the assignments. *)
Lemma foldl_od_set_distinct {V} (f : string → V) (keys : list string)
    (d : list (string * V)) :
  NoDup (od_keys d ++ keys) →
  foldl (λ result key, od_set key (f key) result) d keys
  = d ++ ((λ key, (key, f key)) <$> keys).
Proof.
  revert d. induction keys as [|k keys IH]; intros d Hnd; cbn [foldl].
  - by rewrite app_nil_r.
  - assert (k ∉ od_keys d) as Hk.
    { apply NoDup_app in Hnd as (_ & Hnd & _). intros Hin.
      apply (Hnd k Hin). left. }
    rewrite od_set_fresh by done. rewrite IH.
    + by rewrite <- app_assoc.
    + unfold od_keys. rewrite fmap_app. cbn. rewrite <- app_assoc. exact Hnd.
Qed.

Lemma NoDup_SMTP_KEYS : NoDup SMTP_KEYS.
Proof. apply (bool_decide_unpack _). vm_compute. exact I. Qed.

Lemma get_settings_shown db :
  get_settings db = (λ key, (key, shown key (stored db key))) <$> SMTP_KEYS.
Proof.
  unfold get_settings.
  rewrite foldl_od_set_distinct by apply NoDup_SMTP_KEYS. cbn [app].
  apply list_fmap_ext. intros _ key _. f_equal.
  unfold shown, stored. by destruct (query_setting db key).
Qed.

Lemma full_settings_stored db :
  full_settings db
  = (λ key, (key, default (Some "") (stored db key))) <$> SMTP_KEYS.
Proof.
  unfold full_settings.
  rewrite foldl_od_set_distinct by apply NoDup_SMTP_KEYS. cbn [app].
  apply list_fmap_ext. intros _ key _. f_equal.
  unfold stored. by destruct (query_setting db key).
Qed.

(** X15. [get_settings] never returns the stored password: two tables that
    agree on the other SMTP settings, and on whether a non-empty password
    is stored, get the same answer. *)
Theorem get_settings_hides_password db1 db2 :
  (∀ key, key ∈ SMTP_KEYS → key ≠ "smtp_password" →
          stored db1 key = stored db2 key) →
  (is_Some (truthy_str (mjoin (stored db1 "smtp_password")))
   ↔ is_Some (truthy_str (mjoin (stored db2 "smtp_password")))) →
  get_settings db1 = get_settings db2.
Proof.
  intros Hother Hpassword. rewrite !get_settings_shown.
  apply Forall_fmap_ext, Forall_forall. intros key Hkey. f_equal.
  destruct (decide (key = "smtp_password")) as [->|Hne].
  - unfold shown. cbn [decide_rel]. 
    destruct (stored db1 "smtp_password") as [v1|],
      (stored db2 "smtp_password") as [v2|]; cbn in *;
      repeat case_match; try done;
      first [ by destruct (proj1 Hpassword (mk_is_Some _ _ eq_refl)) as [? [=]]
            | by destruct (proj2 Hpassword (mk_is_Some _ _ eq_refl)) as [? [=]] ].
  - by rewrite (Hother key Hkey Hne).
Qed.

Lemma od_get_None_keys {V} (d : list (string * V)) k :
  k ∉ od_keys d → od_get k d = None.
Proof.
  intros Hk. destruct (od_get k d) eqn:Hget; [|done].
  destruct Hk. apply od_keys_get. by eexists.
Qed.

Lemma stored_foldl_upsert (items : list (string * option string)) db key :
  NoDup (od_keys items) →
  stored (foldl (λ db item,
                   upsert_setting db item.1 (Some (or_empty item.2)) None)
            db items) key
  = match od_get key items with
    | Some value => Some (Some (or_empty value))
    | None => stored db key
    end.
Proof.
  revert db. induction items as [|[k v] items IH]; intros db Hnd; [done|].
  rewrite od_keys_cons in Hnd. apply NoDup_cons in Hnd as [Hk Hnd].
  cbn [foldl od_get fst snd]. rewrite IH by done.
  destruct (decide (key = k)) as [->|Hne].
  - by rewrite od_get_None_keys, stored_upsert.
  - destruct (od_get key items); [done|]. by rewrite stored_upsert_ne.
Qed.

Lemma settings_to_store_eq data db :
  settings_to_store data db
  = [ ("smtp_host", upd_smtp_host data);
      ("smtp_port", upd_smtp_port data);
      ("smtp_tls", upd_smtp_tls data);
      ("smtp_user", upd_smtp_user data);
      ("smtp_password", password_to_store data db);
      ("smtp_from", upd_smtp_from data) ].
Proof.
  unfold settings_to_store, password_to_store, model_dump.
  change (od_get "smtp_password" _) with (Some (upd_smtp_password data)).
  destruct (decide (upd_smtp_password data = Some "****")) as [Hmask|Hmask].
  - rewrite decide_True by congruence.
    destruct (query_setting db "smtp_password"); [reflexivity|].
    by rewrite Hmask.
  - rewrite decide_False by congruence. done.
Qed.

Lemma stored_update_settings_commit data db key :
  stored (update_settings_commit data db) key
  = match od_get key (settings_to_store data db) with
    | Some value => Some (Some (or_empty value))
    | None => stored db key
    end.
Proof.
  unfold update_settings_commit. apply stored_foldl_upsert.
  rewrite settings_to_store_eq. apply NoDup_SMTP_KEYS.
Qed.

Lemma stored_commit_key data db key value :
  od_get key (settings_to_store data db) = Some value →
  stored (update_settings_commit data db) key = Some (Some (or_empty value)).
Proof. intros Hget. by rewrite stored_update_settings_commit, Hget. Qed.

Lemma stored_commit_SMTP_KEYS data db :
  (λ key, stored (update_settings_commit data db) key) <$> SMTP_KEYS
  = [ Some (Some (or_empty (upd_smtp_host data)));
      Some (Some (or_empty (upd_smtp_port data)));
      Some (Some (or_empty (upd_smtp_tls data)));
      Some (Some (or_empty (upd_smtp_user data)));
      Some (Some (or_empty (password_to_store data db)));
      Some (Some (or_empty (upd_smtp_from data))) ].
Proof.
  unfold SMTP_KEYS. cbn [fmap list_fmap].
  rewrite (stored_commit_key data db "smtp_host" (upd_smtp_host data)),
    (stored_commit_key data db "smtp_port" (upd_smtp_port data)),
    (stored_commit_key data db "smtp_tls" (upd_smtp_tls data)),
    (stored_commit_key data db "smtp_user" (upd_smtp_user data)),
    (stored_commit_key data db "smtp_password" (password_to_store data db)),
    (stored_commit_key data db "smtp_from" (upd_smtp_from data))
    by (rewrite settings_to_store_eq; reflexivity).
  reflexivity.
Qed.

Lemma shown_password (value : string) :
  shown "smtp_password" (Some (Some value))
  = if decide (value = "") then "" else "****".
Proof. unfold shown, truthy_str. cbn. by destruct (decide (value = "")). Qed.

(** X16. After [update_settings], [get_settings] returns what was saved:
    under each key the submitted value, the empty string for a value that
    was not given, and under [smtp_password] the mask or the empty string
    according to the password that is now stored. *)
Theorem update_settings_read_back data db :
  get_settings (update_settings_commit data db)
  = [ ("smtp_host", or_empty (upd_smtp_host data));
      ("smtp_port", or_empty (upd_smtp_port data));
      ("smtp_tls", or_empty (upd_smtp_tls data));
      ("smtp_user", or_empty (upd_smtp_user data));
      ("smtp_password",
        if decide (or_empty (password_to_store data db) = "") then "" else "****");
      ("smtp_from", or_empty (upd_smtp_from data)) ].
Proof.
  rewrite get_settings_shown.
  pose proof (stored_commit_SMTP_KEYS data db) as Hstored.
  unfold SMTP_KEYS in *. cbn [fmap list_fmap] in *.
  injection Hstored as -> -> -> -> -> ->.
  rewrite shown_password. reflexivity.
Qed.

(** X17. The configuration writers get the settings that were saved, with
    the password that is stored and not the mask; the mail configuration
    is written exactly when the saved host is not empty, and the voicemail
    configuration is always written and reloaded. *)
Theorem update_settings_calls data db mailboxes :
  let settings :=
    [ ("smtp_host", Some (or_empty (upd_smtp_host data)));
      ("smtp_port", Some (or_empty (upd_smtp_port data)));
      ("smtp_tls", Some (or_empty (upd_smtp_tls data)));
      ("smtp_user", Some (or_empty (upd_smtp_user data)));
      ("smtp_password", Some (or_empty (password_to_store data db)));
      ("smtp_from", Some (or_empty (upd_smtp_from data))) ] in
  (update_settings data db mailboxes).2
  = (if decide (or_empty (upd_smtp_host data) = "") then []
     else [write_msmtp_config settings])
      ++ [write_voicemail_config mailboxes settings; reload_voicemail].
Proof.
  intros settings. unfold update_settings. cbn [snd].
  assert (full_settings (update_settings_commit data db) = settings) as ->.
  { rewrite full_settings_stored.
    pose proof (stored_commit_SMTP_KEYS data db) as Hstored.
    unfold SMTP_KEYS in *. cbn [fmap list_fmap] in *.
    injection Hstored as -> -> -> -> -> ->. reflexivity. }
  f_equal. change (mjoin (od_get "smtp_host" settings))
    with (Some (or_empty (upd_smtp_host data))).
  unfold truthy_str. by destruct (decide _).
Qed.

(** X18. Submitting the mask keeps the password: when a password row
    exists its value stays what it was (NULL becomes the empty string);
    only when there is no password row is the mask itself stored as the
    password. *)
Theorem masked_password_kept data db :
  upd_smtp_password data = Some "****" →
  stored (update_settings_commit data db) "smtp_password"
  = Some (Some match stored db "smtp_password" with
               | Some old => or_empty old
               | None => "****"
               end).
Proof.
  intros Hmask.
  rewrite (stored_commit_key data db "smtp_password" (password_to_store data db))
    by (rewrite settings_to_store_eq; reflexivity).
  unfold password_to_store, stored. rewrite decide_True by done.
  by destruct (query_setting db "smtp_password").
Qed.

Lemma get_settings_get db key :
  key ∈ SMTP_KEYS → od_get key (get_settings db) = Some (shown key (stored db key)).
Proof.
  rewrite get_settings_shown. unfold SMTP_KEYS. cbn [fmap list_fmap].
  intros Hkey. repeat (apply elem_of_cons in Hkey as [->|Hkey]; [reflexivity|]).
  by apply elem_of_nil in Hkey.
Qed.

Lemma or_empty_shown key v : or_empty (Some (shown key v)) = shown key v.
Proof. reflexivity. Qed.

(** X19. Saving the settings exactly as [get_settings] returned them
    changes nothing that [get_settings] returns, and leaves the stored
    password untouched when it was not empty. *)
Theorem resubmit_changes_nothing_shown db :
  let db' := update_settings_commit (resubmit (get_settings db)) db in
  get_settings db' = get_settings db
  ∧ ∀ password, stored db "smtp_password" = Some (Some password) →
                password ≠ "" →
                stored db' "smtp_password" = Some (Some password).
Proof.
  intros db'. subst db'.
  set (data := resubmit (get_settings db)).
  assert (∀ key, key ∈ SMTP_KEYS →
            od_get key (get_settings db) = Some (shown key (stored db key)))
    as Hget by apply get_settings_get.
  assert (upd_smtp_host data = Some (shown "smtp_host" (stored db "smtp_host")))
    as Hhost by (apply Hget; unfold SMTP_KEYS; left).
  assert (upd_smtp_port data = Some (shown "smtp_port" (stored db "smtp_port")))
    as Hport by (apply Hget; unfold SMTP_KEYS; do 1 right; left).
  assert (upd_smtp_tls data = Some (shown "smtp_tls" (stored db "smtp_tls")))
    as Htls by (apply Hget; unfold SMTP_KEYS; do 2 right; left).
  assert (upd_smtp_user data = Some (shown "smtp_user" (stored db "smtp_user")))
    as Huser by (apply Hget; unfold SMTP_KEYS; do 3 right; left).
  assert (upd_smtp_password data
          = Some (shown "smtp_password" (stored db "smtp_password")))
    as Hsubmitted by (apply Hget; unfold SMTP_KEYS; do 4 right; left).
  assert (upd_smtp_from data = Some (shown "smtp_from" (stored db "smtp_from")))
    as Hfrom by (apply Hget; unfold SMTP_KEYS; do 5 right; left).
  clearbody data. split.
  - rewrite update_settings_read_back, get_settings_shown.
    unfold SMTP_KEYS. cbn [fmap list_fmap].
    rewrite Hhost, Hport, Htls, Huser, Hfrom, !or_empty_shown.
    assert ((if decide (or_empty (password_to_store data db) = "")
             then "" else "****")
            = shown "smtp_password" (stored db "smtp_password")) as ->;
      [|reflexivity].
    unfold password_to_store. rewrite Hsubmitted. unfold stored.
    destruct (query_setting db "smtp_password") as [row|]; [|reflexivity].
    cbn [fmap option_fmap option_map].
    destruct (setting_value row) as [pw|]; [|reflexivity].
    rewrite shown_password.
    destruct (decide (pw = "")) as [->|Hpw]; [reflexivity|].
    rewrite (decide_True (P := Some "****" = Some "****")) by reflexivity.
    cbn [or_empty default from_option id]. by rewrite decide_False.
  - intros password Hstored Hne.
    rewrite (stored_commit_key _ db "smtp_password" (password_to_store data db))
      by (rewrite settings_to_store_eq; reflexivity).
    unfold password_to_store. rewrite Hsubmitted, Hstored.
    rewrite shown_password, (decide_False (P := password = "")) by done.
    rewrite (decide_True (P := Some "****" = Some "****")) by reflexivity.
    unfold stored in Hstored.
    destruct (query_setting db "smtp_password") as [row|]; [|done].
    cbn in Hstored. injection Hstored as ->. done.
Qed.

(** ** Codecs *)

Lemma split_on_nonempty sep s : split_on sep s ≠ [].
Proof.
  destruct s as [|c rest]; [done|]. cbn [split_on].
  destruct (Ascii.eqb c sep); [done|]. by destruct (split_on sep rest).
Qed.

Lemma split_on_app sep (item rest : string) :
  has_char sep item = false →
  split_on sep (item +:+ rest)
  = match split_on sep rest with
    | first :: items => (item +:+ first) :: items
    | [] => []
    end.
Proof.
  induction item as [|c item IH]; intros Hitem.
  - change ("" +:+ rest) with rest.
    destruct (split_on sep rest) as [|first items] eqn:Hrest; [|done].
    by destruct (split_on_nonempty sep rest).
  - cbn [has_char] in Hitem. apply orb_false_elim in Hitem as [Hc Hitem].
    rewrite string_app_cons. cbn [split_on]. rewrite Hc, IH by done.
    destruct (split_on sep rest) as [|first items] eqn:Hrest; [|done].
    by destruct (split_on_nonempty sep rest).
Qed.

Lemma join_cons_cons sep (x y : string) l :
  join sep (x :: y :: l) = x +:+ sep +:+ join sep (y :: l).
Proof. reflexivity. Qed.

Lemma split_on_sep sep (rest : string) :
  split_on sep (String sep EmptyString +:+ rest) = "" :: split_on sep rest.
Proof.
  change (String sep "" +:+ rest) with (String sep rest). cbn [split_on].
  by rewrite Ascii.eqb_refl.
Qed.

(** Splitting the joined list gives the list back, when no item holds the
    separator. *)
Lemma split_on_join (l : list string) :
  l ≠ [] → Forall (λ c, has_char "," c = false) l →
  split_on "," (join "," l) = l.
Proof.
  induction l as [|x l IH]; [done|]. intros _ Hl.
  apply Forall_cons in Hl as [Hx Hl]. destruct l as [|y l].
  - cbn [join]. rewrite <- (string_app_nil_r x) at 1.
    rewrite split_on_app by done. cbn [split_on]. by rewrite string_app_nil_r.
  - rewrite join_cons_cons, split_on_app by done.
    rewrite (split_on_sep "," (join "," (y :: l))), IH by done.
    by rewrite string_app_nil_r.
Qed.

Lemma codec_ids_no_comma c : c ∈ AVAILABLE_CODEC_IDS → has_char "," c = false.
Proof.
  unfold AVAILABLE_CODEC_IDS. intros Hc.
  repeat (apply elem_of_cons in Hc as [->|Hc]; [reflexivity|]).
  by apply elem_of_nil in Hc.
Qed.

Lemma codec_ids_nonempty c : c ∈ AVAILABLE_CODEC_IDS → c ≠ "".
Proof.
  unfold AVAILABLE_CODEC_IDS. intros Hc.
  repeat (apply elem_of_cons in Hc as [->|Hc]; [discriminate|]).
  by apply elem_of_nil in Hc.
Qed.

Lemma parse_codecs_join strip (codecs : list string) :
  (∀ c, c ∈ AVAILABLE_CODEC_IDS → strip c = c) →
  codecs ≠ [] → Forall (λ c, c ∈ AVAILABLE_CODEC_IDS) codecs →
  parse_codecs strip (join "," codecs) = codecs.
Proof.
  intros Hstrip Hne Hknown. unfold parse_codecs.
  rewrite split_on_join; [|done|].
  - rewrite filter_every.
    + rewrite <- (list_fmap_id codecs) at 2. apply Forall_fmap_ext.
      eapply Forall_impl; [exact Hknown|]. intros c Hc. by apply Hstrip.
    + intros c Hc. rewrite Hstrip by (by eapply Forall_forall in Hknown).
      apply codec_ids_nonempty. by eapply Forall_forall in Hknown.
  - eapply Forall_impl; [exact Hknown|]. apply codec_ids_no_comma.
Qed.

Lemma set_setting_value_twice db key value :
  set_setting_value (set_setting_value db key value) key value
  = set_setting_value db key value.
Proof.
  induction db as [|row db IH]; [done|]. cbn [set_setting_value].
  destruct (decide (setting_key row = key)) as [Hk|Hk]; cbn [set_setting_value setting_key].
  - by rewrite decide_True.
  - by rewrite decide_False, IH.
Qed.

Lemma set_setting_value_fresh db key value description :
  query_setting db key = None →
  set_setting_value (db ++ [mkSystemSettings key value description]) key value
  = db ++ [mkSystemSettings key value description].
Proof.
  unfold query_setting. induction db as [|row db IH]; cbn [app set_setting_value find].
  - intros _. cbn [setting_key setting_description]. by rewrite decide_True.
  - destruct (bool_decide (setting_key row = key)) eqn:Hk; [done|].
    apply bool_decide_eq_false in Hk. intros Hdb.
    by rewrite decide_False, IH.
Qed.

(** Writing the same value under the same key again changes nothing. *)
Lemma upsert_setting_twice db key value description :
  upsert_setting (upsert_setting db key value description) key value description
  = upsert_setting db key value description.
Proof.
  pose proof (stored_upsert db key value description) as Hstored.
  unfold stored in Hstored. unfold upsert_setting at 1.
  destruct (query_setting (upsert_setting db key value description) key)
    as [row|]; [|done].
  unfold upsert_setting. destruct (query_setting db key) eqn:Hq.
  - apply set_setting_value_twice.
  - by apply set_setting_value_fresh.
Qed.

Lemma find_unknown_codec_None codecs :
  find (λ c, bool_decide (c ∉ AVAILABLE_CODEC_IDS)) codecs = None
  ↔ Forall (λ c, c ∈ AVAILABLE_CODEC_IDS) codecs.
Proof.
  induction codecs as [|c codecs IH]; [by split; [constructor|]|].
  cbn [find]. rewrite Forall_cons, <- IH.
  destruct (decide (c ∈ AVAILABLE_CODEC_IDS)) as [Hc|Hc].
  - rewrite bool_decide_eq_false_2 by (intros Hnot; done). tauto.
  - rewrite bool_decide_eq_true_2 by done. split; [done|tauto].
Qed.

(** X20. What [update_codec_settings] stores is in normal form: the
    stored value is a comma-separated list of known codec identifiers,
    [get_codec_settings] returns it, and submitting it again is accepted
    and leaves the table, the calls and the answer as they are.  ([strip]
    is any function that leaves the codec identifiers unchanged, as
    [str.strip] does.) *)
Theorem codec_update_fixed_point strip global_codecs db all_peers all_trunks
    db' calls saved DEFAULT_CODECS :
  (∀ c, c ∈ AVAILABLE_CODEC_IDS → strip c = c) →
  update_codec_settings strip global_codecs db all_peers all_trunks
  = Returned (db', calls, saved) →
  update_codec_settings strip saved db' all_peers all_trunks
  = Returned (db', calls, saved)
  ∧ get_codec_settings DEFAULT_CODECS db' = Some saved
  ∧ split_on "," saved = parse_codecs strip global_codecs
  ∧ Forall (λ c, c ∈ AVAILABLE_CODEC_IDS) (split_on "," saved).
Proof.
  intros Hstrip. unfold update_codec_settings at 1.
  destruct (parse_codecs strip global_codecs) as [|c rest] eqn:Hparse; [done|].
  cbv beta iota zeta. remember (c :: rest) as codecs eqn:Hcodecs.
  destruct (find _ codecs) eqn:Hfind; [done|].
  apply find_unknown_codec_None in Hfind. intros Hreturned.
  assert (db' = upsert_setting db "global_codecs" (Some (join "," codecs))
                  (Some "Global audio codecs")) as Hdb by congruence.
  assert (saved = join "," codecs) as Hsaved by congruence.
  assert (codecs ≠ []) as Hne by (subst codecs; done).
  assert (split_on "," (join "," codecs) = codecs) as Hsplit.
  { apply split_on_join; [done|].
    eapply Forall_impl; [exact Hfind|]. apply codec_ids_no_comma. }
  split_and!.
  - rewrite <- Hreturned. unfold update_codec_settings.
    rewrite Hsaved, parse_codecs_join by done.
    destruct codecs as [|c' rest']; [done|].
    apply find_unknown_codec_None in Hfind. rewrite Hfind.
    by rewrite Hdb, upsert_setting_twice.
  - unfold get_codec_settings. rewrite Hdb, Hsaved.
    pose proof (stored_upsert db "global_codecs" (Some (join "," codecs))
                  (Some "Global audio codecs")) as Hstored.
    unfold stored in Hstored.
    destruct (query_setting _ _) as [row|]; [|done].
    cbn in Hstored. by injection Hstored.
  - by rewrite Hsaved, Hsplit.
  - by rewrite Hsaved, Hsplit.
Qed.

Lemma codec_update_fixed_point_witness :
  (∀ c, c ∈ AVAILABLE_CODEC_IDS → strip_ascii c = c)
  ∧ update_codec_settings strip_ascii " ulaw , ,g722," [] [] []
    = Returned
        ([mkSystemSettings "global_codecs" (Some "ulaw,g722")
            (Some "Global audio codecs")],
         [write_pjsip_config [] [] "ulaw,g722" false; reload_asterisk],
         "ulaw,g722")
  ∧ update_codec_settings strip_ascii "ulaw,g722"
      [mkSystemSettings "global_codecs" (Some "ulaw,g722")
         (Some "Global audio codecs")] [] []
    = Returned
        ([mkSystemSettings "global_codecs" (Some "ulaw,g722")
            (Some "Global audio codecs")],
         [write_pjsip_config [] [] "ulaw,g722" false; reload_asterisk],
         "ulaw,g722").
Proof.
  assert (∀ c, c ∈ AVAILABLE_CODEC_IDS → strip_ascii c = c) as Hstrip.
  { unfold AVAILABLE_CODEC_IDS. intros c Hc.
    repeat (apply elem_of_cons in Hc as [->|Hc]; [reflexivity|]).
    by apply elem_of_nil in Hc. }
  assert (update_codec_settings strip_ascii " ulaw , ,g722," [] [] []
          = Returned
              ([mkSystemSettings "global_codecs" (Some "ulaw,g722")
                  (Some "Global audio codecs")],
               [write_pjsip_config [] [] "ulaw,g722" false; reload_asterisk],
               "ulaw,g722")) as Hfirst by (vm_compute; reflexivity).
  split; [exact Hstrip|]. split; [exact Hfirst|].
  apply (codec_update_fixed_point strip_ascii " ulaw , ,g722," [] [] [] _ _ _
           None Hstrip Hfirst).
Defined.

(** ** Runs of the settings router on sample data *)

Lemma write_extensions_config_result_witness :
  ∃ config_content,
    generate_extensions_config elements_order sample_routes None None None None
    = Some config_content
    ∧ (write_extensions_config elements_order sample_routes None None None None
         (∅ : gmap string string)).2 = true
    ∧ (write_extensions_config elements_order sample_routes None None None None
         (∅ : gmap string string)).1 !! EXTENSIONS_CONFIG_PATH
      = Some config_content.
Proof.
  destruct (write_extensions_config_result elements_order sample_routes
              None None None None (∅ : gmap string string))
    as (config_content & Hgen & Hresult & Hread).
  exists config_content. split; [exact Hgen|].
  split; [exact Hresult|]. exact (Hread Hresult).
Defined.

Lemma get_settings_hides_password_witness :
  (∀ key, key ∈ SMTP_KEYS → key ≠ "smtp_password" →
          stored sample_settings key = stored sample_settings_other key)
  ∧ stored sample_settings "smtp_password" = Some (Some "s3cret")
  ∧ stored sample_settings_other "smtp_password" = Some (Some "another")
  ∧ get_settings sample_settings = get_settings sample_settings_other.
Proof.
  assert (∀ key, key ∈ SMTP_KEYS → key ≠ "smtp_password" →
            stored sample_settings key = stored sample_settings_other key)
    as Hother.
  { unfold SMTP_KEYS. intros key Hkey Hne.
    repeat (apply elem_of_cons in Hkey as [->|Hkey]; [done|]).
    by apply elem_of_nil in Hkey. }
  split; [exact Hother|]. split; [reflexivity|]. split; [reflexivity|].
  apply (get_settings_hides_password sample_settings sample_settings_other Hother).
  split; intros _; by eexists.
Defined.

Lemma masked_password_kept_witness :
  upd_smtp_password sample_update = Some "****"
  ∧ stored (update_settings_commit sample_update sample_settings) "smtp_password"
    = Some (Some "s3cret").
Proof.
  split; [reflexivity|].
  exact (masked_password_kept sample_update sample_settings eq_refl).
Defined.

Lemma unconditional_forward_text_witness :
  forward_of (_build_forward_map sample_forwards) "1001" "unconditional"
  = Some sample_cfu
  ∧ has_char "V" (cf_destination sample_cfu) = false
  ∧ has_char "_" (cf_destination sample_cfu) = false
  ∧ occurs "VoiceMail("
      (_generate_dial_logic "1001" (_build_forward_map sample_forwards) 20 true)
    = false
  ∧ occurs "DEVICE_STATE"
      (_generate_dial_logic "1001" (_build_forward_map sample_forwards) 20 true)
    = false.
Proof.
  assert (forward_of (_build_forward_map sample_forwards) "1001" "unconditional"
          = Some sample_cfu) as Hcfu by (vm_compute; reflexivity).
  split; [exact Hcfu|]. split; [reflexivity|]. split; [reflexivity|].
  exact (unconditional_forward_text "1001" (_build_forward_map sample_forwards)
           20 sample_cfu true Hcfu eq_refl eq_refl).
Defined.
